(** * github_crypto_monitor: a shallow embedding and its checked properties

    The development follows [src/github_crypto_monitor.py]: Python strings
    are sequences of Unicode code points, the module-level dictionary
    [last_commits] is a finite map, the calls to the remote services are
    explicit outcomes supplied by the environment, and code that can raise
    lives in a small state-and-exception monad. *)

From Stdlib Require Import ZArith NArith List Ascii String Bool Lia.
From stdpp Require Import base option list gmap.

Local Open Scope nat_scope.

(** ** Python strings *)

(** A Python [str] is a sequence of code points; [len], indexing and
    slicing all count code points. *)
Abbreviation pystr := (list N).

(** An ASCII literal of the source, as code points. *)
Definition str (s : string) : pystr :=
  map N_of_ascii (list_ascii_of_string s).

(** [len(s)] *)
Definition py_len (s : pystr) : nat := length s.

(** [s[i:j]] for indices [0 <= i <= j]; Python clamps both ends to [len(s)]. *)
Definition py_slice (s : pystr) (i j : nat) : pystr :=
  firstn (j - i) (skipn i s).

(** [s[:n]] *)
Definition py_prefix (s : pystr) (n : nat) : pystr := py_slice s 0 n.

(** [range(start, stop, step)] for a positive step: CPython computes the
    number of elements as [(stop - start + step - 1) // step]. *)
Definition py_range (start stop step : nat) : list nat :=
  map (fun k => start + k * step) (seq 0 ((stop - start + step - 1) / step)).

(** [sep.join(parts)] *)
Fixpoint py_join (sep : pystr) (parts : list pystr) : pystr :=
  match parts with
  | [] => []
  | [p] => p
  | p :: rest => p ++ sep ++ py_join sep rest
  end.

(** [w in s] for strings: [w] occurs in [s] as a contiguous run. *)
Fixpoint starts_with (w s : pystr) : bool :=
  match w, s with
  | [], _ => true
  | _ :: _, [] => false
  | a :: w', b :: s' => N.eqb a b && starts_with w' s'
  end.

Fixpoint py_contains (w s : pystr) : bool :=
  starts_with w s ||
  match s with
  | [] => false
  | _ :: s' => py_contains w s'
  end.

(** ** Markdown escaping (lines 80-83) *)

(** The set denoted by the character class
    [[_*[\]()~`>#\+\-=|{}.!]]: inside the brackets [\]], [\+] and [\-]
    stand for the characters themselves, so the class has eighteen members
    and the backslash is not one of them. *)
Definition escape_chars : pystr := str "_*[]()~`>#+-=|{}.!".

Definition backslash : N := 92%N.

Definition in_class (cls : pystr) (c : N) : bool := existsb (N.eqb c) cls.

(** [re.sub(cls, repl, text)] for a pattern that is a single character
    class: the text is scanned left to right and every character of the
    class is a match, replaced by the expansion of the template. *)
Fixpoint re_sub_class (cls : pystr) (repl : N -> pystr) (text : pystr) : pystr :=
  match text with
  | [] => []
  | c :: rest =>
      if in_class cls c
      then repl c ++ re_sub_class cls repl rest
      else c :: re_sub_class cls repl rest
  end.

(** The template [r"\\\g<0>"] expands to a backslash followed by the match. *)
Definition escape_template (c : N) : pystr := [backslash; c].

Definition escape_markdown (text : pystr) : pystr :=
  re_sub_class escape_chars escape_template text.

(** ** Splitting for the transport (line 90) *)

Definition chunk_limit : nat := 4000.

(** [[safe_message[i:i+4000] for i in range(0, len(safe_message), 4000)]] *)
Definition message_chunks (safe_message : pystr) : list pystr :=
  map (fun i => py_slice safe_message i (i + chunk_limit))
      (py_range 0 (py_len safe_message) chunk_limit).

(** ** Word splitting (line 43) *)

(** [text.split()]: the maximal runs of characters that are not white
    space, in order. White space is what [str.isspace] accepts. *)
Definition is_space (c : N) : bool :=
  ((9 <=? c) && (c <=? 13) || (28 <=? c) && (c <=? 32)
   || (c =? 133) || (c =? 160) || (c =? 5760)
   || (8192 <=? c) && (c <=? 8202)
   || (c =? 8232) || (c =? 8233) || (c =? 8239) || (c =? 8287)
   || (c =? 12288))%N.

Fixpoint split_words (cur : pystr) (s : pystr) : list pystr :=
  match s with
  | [] => match cur with [] => [] | _ => [rev cur] end
  | c :: rest =>
      if is_space c
      then match cur with
           | [] => split_words [] rest
           | _ => rev cur :: split_words [] rest
           end
      else split_words (c :: cur) rest
  end.

Definition py_split (s : pystr) : list pystr := split_words [] s.

(** ** Exceptions *)

(** The exception classes that occur, all subclasses of [Exception]. The
    first five are subclasses of [requests.RequestException] (the fourth
    in current versions of the library); [RequestException cls] stands for
    any further subclass, by its name: [TooManyRedirects],
    [ChunkedEncodingError], [ContentDecodingError], [InvalidURL] and the
    like. *)
Inductive exn : Type :=
| ConnectionError
| Timeout
| HTTPError (status_code : Z)
| JSONDecodeError
| RequestException (cls : string)
| IndexError
| KeyError
| AttributeError
| TypeError
| RuntimeError
| TelegramError.

Definition is_RequestException (e : exn) : bool :=
  match e with
  | ConnectionError | Timeout | HTTPError _ | JSONDecodeError
  | RequestException _ => true
  | _ => false
  end.

(** The outcome of code that returns or raises. *)
Inductive result (A : Type) : Type :=
| Ok (a : A)
| Raise (e : exn).
Arguments Ok {A} a.
Arguments Raise {A} e.

(** ** Commit classifier (lines 41-78) *)

(** An entry of the [files] list of a commit detail. *)
Record file_change : Type := FileChange { filename : pystr; status : pystr }.

Definition bullish_terms : list pystr :=
  map str ["scaling"; "upgrade"; "performance"; "optimization"; "security";
           "merge"; "enhancement"; "feature"]%string.

Definition bearish_terms : list pystr :=
  map str ["bug"; "deprecated"; "reverted"; "removed"; "issue";
           "vulnerability"; "rollback"; "fix"]%string.

(** The three labels; each ends in a pictograph. *)
Definition label_bullish : pystr := str "Bullish " ++ [0x1F4C8%N].
Definition label_bearish : pystr := str "Bearish " ++ [0x1F4C9%N].
Definition label_neutral : pystr := str "Neutral " ++ [0x2696%N; 0xFE0F%N].

Definition why_bullish : pystr := str "New features or optimizations detected.".
Definition why_bearish : pystr := str "Bug fixes, deprecations, or rollbacks detected.".
Definition why_neutral : pystr := str "No strong indicators found.".

(** Truth value of a list: non-empty. *)
Definition truthy {A} (l : list A) : bool :=
  match l with [] => false | _ => true end.

(** [max_length] and [min_length] of lines 43-45, on Python integers;
    [//] is floor division. *)
Definition max_length (text : pystr) : Z :=
  let input_length := Z.of_nat (length (py_split text)) in
  Z.min 50 (Z.max 10 (input_length - 1)).

Definition min_length (text : pystr) : Z :=
  Z.max 5 (max_length text / 2).

Section Classifier.
(** The summarization pipeline, called as
    [summarizer(text, max_length=.., min_length=.., do_sample=False)]
    followed by [[0]["summary_text"]]: both happen inside the [try], so
    the outcome is either the summary string or an exception. *)
Variable summarizer : pystr -> Z -> Z -> result pystr.

(** [str.lower], the Unicode lower-casing of the Python runtime. *)
Variable lower : pystr -> pystr.

(** [TextBlob(..).sentiment.polarity]; the score is computed and not used. *)
Context {score : Type}.
Variable polarity : pystr -> score.

Definition summarize_text (text : pystr) : pystr :=
  match summarizer text (max_length text) (min_length text) with
  | Ok summary => summary
  | Raise _ => py_prefix text 200
  end.

Definition analyze_commit (commit_message : pystr)
    (commit_files : list file_change) : pystr * pystr * pystr :=
  let summary := summarize_text commit_message in
  let sentiment := polarity commit_message in
  let added_files :=
    map filename (filter (fun f => status f = str "added") commit_files) in
  let removed_files :=
    map filename (filter (fun f => status f = str "removed") commit_files) in
  if existsb (fun word => py_contains word (lower commit_message)) bullish_terms
     || truthy added_files
  then (summary, label_bullish, why_bullish)
  else if existsb (fun word => py_contains word (lower commit_message)) bearish_terms
          || truthy removed_files
  then (summary, label_bearish, why_bearish)
  else (summary, label_neutral, why_neutral).

End Classifier.

(** Lower-casing restricted to the ASCII letters; it agrees with
    [str.lower] on every string of ASCII characters. *)
Definition ascii_lower (s : pystr) : pystr :=
  map (fun c => if ((65 <=? c) && (c <=? 90))%N then (c + 32)%N else c) s.

(** ** A monad for code that raises, and one that also mutates the state *)

#[global] Instance result_ret : MRet result := fun _ a => Ok a.
#[global] Instance result_bind : MBind result := fun _ _ k r =>
  match r with
  | Ok a => k a
  | Raise e => Raise e
  end.

(** [try: body except cls: handler], where [catches] tells which exceptions
    the clause names. *)
Definition try_except {A} (body : result A) (catches : exn -> bool)
    (handler : exn -> result A) : result A :=
  match body with
  | Ok a => Ok a
  | Raise e => if catches e then handler e else Raise e
  end.

(** [except Exception] names every class of [exn]. *)
Definition any_Exception (e : exn) : bool := true.

(** ** Commit fetcher (lines 30-39) *)

(** A commit object of the commit-list response, with the four fields the
    program reads. *)
Record commit : Type := Commit {
  sha : pystr;
  message : pystr;     (* commit["commit"]["message"] *)
  html_url : pystr;
  url : pystr
}.

(** Ways in which [requests.get] itself raises: the library raises
    subclasses of [requests.RequestException], here the connection error,
    the timeout, and any other one by its class name. *)
Inductive transport_failure : Type :=
| Unreachable
| TimedOut
| OtherFailure (cls : string).

Definition exn_of_failure (f : transport_failure) : exn :=
  match f with
  | Unreachable => ConnectionError
  | TimedOut => Timeout
  | OtherFailure cls => RequestException cls
  end.

(** A JSON value that is not an array and not a string. *)
Inductive non_array : Type := JsonObject | JsonNull | JsonNumber | JsonBoolean.

(** [v[0]] on such a value: a dictionary has no key [0], the others cannot
    be subscripted. *)
Definition subscript_error (v : non_array) : exn :=
  match v with
  | JsonObject => KeyError
  | JsonNull | JsonNumber | JsonBoolean => TypeError
  end.

(** What the remote does with the commit-list request: no response at all,
    or a response with a status code whose body decodes to a sequence of
    commit objects, newest first, or is not JSON, or is a JSON object,
    null, number or boolean. (A body that is a JSON string, or an array
    whose first element is not a commit object, would make the function
    return a value that is not a commit; such bodies are left out.) *)
Inductive list_response : Type :=
| ListFails (f : transport_failure)
| ListReplies (status_code : Z) (body : list commit)
| ListGarbled (status_code : Z)
| ListNotArray (status_code : Z) (body : non_array).

(** What the remote does with the commit-detail request: no response, a
    body that is not JSON, a JSON value that is not an object (it has no
    [get]), or a JSON object that may have a [files] key. The status is
    never looked at. *)
Inductive detail_response : Type :=
| DetailFails (f : transport_failure)
| DetailGarbled
| DetailNotObject
| DetailReplies (files : option (list file_change)).

(** [response.raise_for_status()] *)
Definition raise_for_status (status_code : Z) : result unit :=
  if ((400 <=? status_code) && (status_code <? 600))%Z
  then Raise (HTTPError status_code)
  else Ok tt.

(** [l[0]] *)
Definition first_item {A} (l : list A) : result A :=
  match l with
  | [] => Raise IndexError
  | x :: _ => Ok x
  end.

Definition commits_url (repo : pystr) : pystr :=
  str "https://api.github.com/repos/" ++ repo ++ str "/commits".

Section Fetcher.
(** [requests.get(url, headers=HEADERS, timeout=10)] on a commit-list URL *)
Variable get_commits : pystr -> list_response.

Definition get_latest_commit (repo : pystr) : result (option commit) :=
  let url := commits_url repo in
  try_except
    (match get_commits url with
     | ListFails f => Raise (exn_of_failure f)
     | ListReplies status_code body =>
         _ ← raise_for_status status_code;
         c ← first_item body;
         Ok (Some c)
     | ListGarbled status_code =>
         _ ← raise_for_status status_code;
         Raise JSONDecodeError
     | ListNotArray status_code body =>
         _ ← raise_for_status status_code;
         Raise (subscript_error body)
     end)
    is_RequestException
    (fun _ => Ok None).
End Fetcher.

(** [requests.get(commit_details_url, headers=HEADERS).json()] followed by
    [commit_details.get("files", [])] (lines 112-113). *)
Definition get_commit_files (r : detail_response) : result (list file_change) :=
  match r with
  | DetailFails f => Raise (exn_of_failure f)
  | DetailGarbled => Raise JSONDecodeError
  | DetailNotObject => Raise AttributeError
  | DetailReplies files => Ok (default [] files)
  end.

(** ** Change tracker (lines 28, 115-116) *)

(** [last_commits.get(repo) != commit_sha] *)
Definition is_new (last_commits : gmap pystr pystr) (repo commit_sha : pystr) : bool :=
  match last_commits !! repo with
  | None => true
  | Some stored => bool_decide (stored ≠ commit_sha)
  end.

(** [last_commits[repo] = commit_sha] *)
Definition record (last_commits : gmap pystr pystr) (repo commit_sha : pystr)
  : gmap pystr pystr :=
  <[repo := commit_sha]> last_commits.

(** ** Program state *)

(** [last_commits] is the module-level dictionary. [calls] lists the texts
    handed to [bot.send_message], oldest first. [appended] is a ghost
    field: the (repository, sha) of every [messages.append], oldest first. *)
Record state : Type := State {
  last_commits : gmap pystr pystr;
  calls : list pystr;
  appended : list (pystr * pystr)
}.

Definition initial_state : state := State ∅ [] [].

Definition prog (A : Type) : Type := state -> result A * state.

#[global] Instance prog_ret : MRet prog := fun _ a st => (Ok a, st).
#[global] Instance prog_bind : MBind prog := fun _ _ k c st =>
  match c st with
  | (Ok a, st') => k a st'
  | (Raise e, st') => (Raise e, st')
  end.

Definition lift {A} (r : result A) : prog A := fun st => (r, st).

Definition read_last_commits : prog (gmap pystr pystr) :=
  fun st => (Ok (last_commits st), st).

Definition write_last_commits (repo commit_sha : pystr) : prog unit :=
  fun st => (Ok tt, State (record (last_commits st) repo commit_sha)
                          (calls st) (appended st)).

Definition note_appended (repo commit_sha : pystr) : prog unit :=
  fun st => (Ok tt, State (last_commits st) (calls st)
                          (appended st ++ [(repo, commit_sha)])).

(** [try: c except Exception: log] inside stateful code: whatever [c] did
    to the state before raising stays done. *)
Definition swallow (c : prog unit) : prog unit :=
  fun st =>
    match c st with
    | (Ok _, st') => (Ok tt, st')
    | (Raise e, st') => if any_Exception e then (Ok tt, st') else (Raise e, st')
    end.

(** ** Notifier (lines 85-95) *)

(** [bot.send_message(chat_id=.., text=text, ..)]: the call is noted in
    [calls]; whether it succeeds is up to the transport, which sees how
    many calls came before and the text. *)
Definition bot_send_message (transport : nat -> pystr -> result unit)
    (text : pystr) : prog unit :=
  fun st =>
    (transport (length (calls st)) text,
     State (last_commits st) (calls st ++ [text]) (appended st)).

Fixpoint send_chunks (transport : nat -> pystr -> result unit)
    (chunks : list pystr) : prog unit :=
  match chunks with
  | [] => mret tt
  | chunk :: rest =>
      swallow (bot_send_message transport chunk);;
      send_chunks transport rest
  end.

Definition send_telegram_message (transport : nat -> pystr -> result unit)
    (message : pystr) : prog unit :=
  let safe_message := escape_markdown message in
  send_chunks transport (message_chunks safe_message).

(** ** Poll loop (lines 97-138) *)

(** What the environment does during one pass over the repositories. The
    requests of the [i]-th repository visited are answered by
    [get_commits i] and [get_detail i], each given the URL requested. *)
Record world : Type := World {
  get_commits : nat -> pystr -> list_response;
  get_detail : nat -> pystr -> detail_response;
  transport : nat -> pystr -> result unit
}.

Definition newline : N := 10%N.

(** The f-string of lines 120-124. *)
Definition format_update (repo summary sentiment explanation commit_url : pystr)
  : pystr :=
  [0x1F514%N] ++ str " **" ++ repo ++ str " Update**" ++ [newline]
  ++ [0x1F4DD%N] ++ str " " ++ summary ++ [newline]
  ++ [0x1F4CA%N] ++ str " Sentiment: " ++ sentiment ++ [newline]
  ++ [0x1F9D0%N] ++ str " Reason: " ++ explanation ++ [newline]
  ++ [0x1F517%N] ++ str " [View Commit](" ++ commit_url ++ str ")".

Section Monitor.
Variable summarizer : pystr -> Z -> Z -> result pystr.
Variable lower : pystr -> pystr.
Context {score : Type}.
Variable polarity : pystr -> score.

(** The configured repositories, in configuration order. *)
Variable REPOS : list pystr.

(** The body of [for repo in REPOS] (lines 103-125); [i] is the position
    of [repo] in [REPOS]. *)
Definition visit_repo (w : world) (i : nat) (repo : pystr)
    (messages : list pystr) : prog (list pystr) :=
  commit ← lift (get_latest_commit (get_commits w i) repo);
  match commit with
  | None => mret messages
  | Some commit =>
      let commit_message := message commit in
      let commit_url := html_url commit in
      let commit_sha := sha commit in
      let commit_details_url := url commit in
      commit_files ← lift (get_commit_files (get_detail w i commit_details_url));
      seen ← read_last_commits;
      if is_new seen repo commit_sha then
        write_last_commits repo commit_sha;;
        let '(summary, sentiment, explanation) :=
          analyze_commit summarizer lower polarity commit_message commit_files in
        note_appended repo commit_sha;;
        mret (messages ++
              [format_update repo summary sentiment explanation commit_url])
      else mret messages
  end.

Fixpoint for_repos (w : world) (i : nat) (repos : list pystr)
    (messages : list pystr) : prog (list pystr) :=
  match repos with
  | [] => mret messages
  | repo :: rest =>
      messages' ← visit_repo w i repo messages;
      for_repos w (S i) rest messages'
  end.

(** One iteration of [while True] in [track_repos], without the sleep. *)
Definition poll_cycle (w : world) : prog unit :=
  messages ← for_repos w 0 REPOS [];
  if truthy messages
  then send_telegram_message (transport w) (py_join [newline; newline] messages)
  else mret tt.

(** [track_repos]: the loop has no exit, so it runs one iteration per
    world supplied and stops early only when an iteration raises; the
    worlds not yet used are handed back with the exception. *)
Fixpoint track_repos (ws : list world) (st : state)
  : option (exn * list world) * state :=
  match ws with
  | [] => (None, st)
  | w :: rest =>
      match poll_cycle w st with
      | (Ok _, st') => track_repos rest st'
      | (Raise e, st') => (Some (e, rest), st')
      end
  end.

(** The top-level wrapper (lines 133-138) around [track_repos]: an
    exception is logged and [track_repos] is started again, on the same
    module state. Fused with the loop of [track_repos], this is one
    iteration per world, whether or not the previous one raised. *)
Fixpoint main_loop (ws : list world) (st : state) : state :=
  match ws with
  | [] => st
  | w :: rest => main_loop rest (snd (poll_cycle w st))
  end.

End Monitor.

(** ** Configuration (line 18) *)

(** [s.split(sep)] for a separator of one character: the text is cut at
    every occurrence of the separator and empty pieces are kept. *)
Fixpoint split_on (sep : N) (cur : pystr) (s : pystr) : list pystr :=
  match s with
  | [] => [rev cur]
  | c :: rest =>
      if (c =? sep)%N
      then rev cur :: split_on sep [] rest
      else split_on sep (c :: cur) rest
  end.

Definition comma : N := 44%N.

(** [REPOS = os.getenv("REPOS").split(",")]: [os.getenv] gives [None] for a
    variable that is not set, and [None] has no [split]. *)
Definition load_REPOS (env_REPOS : option pystr) : result (list pystr) :=
  match env_REPOS with
  | None => Raise AttributeError
  | Some value => Ok (split_on comma [] value)
  end.

(** ** Vocabulary of the statements *)

(** [w] occurs in [s] as a contiguous run of characters. *)
Definition occurs_in (w s : pystr) : Prop :=
  ∃ pre post, s = pre ++ w ++ post.

(** The escaped text with the inserted markers taken out again: a marker
    is dropped when it stands before a character of the class. *)
Fixpoint strip_markers (t : pystr) : pystr :=
  match t with
  | [] => []
  | c :: rest =>
      match rest with
      | d :: _ =>
          if (c =? backslash)%N && in_class escape_chars d
          then strip_markers rest
          else c :: strip_markers rest
      | [] => [c]
      end
  end.

(** The entries of a changed-file list that have the given status. *)
Definition files_with (st : pystr) (files : list file_change) : list file_change :=
  filter (fun f => status f = st) files.

(** The lower-cased message holds one of [terms]. *)
Definition mentions (terms : list pystr) (lowered : pystr) : Prop :=
  ∃ w, w ∈ terms ∧ occurs_in w lowered.

Definition bullish_signal (lowered : pystr) (files : list file_change) : Prop :=
  mentions bullish_terms lowered ∨ files_with (str "added") files ≠ [].

Definition bearish_signal (lowered : pystr) (files : list file_change) : Prop :=
  mentions bearish_terms lowered ∨ files_with (str "removed") files ≠ [].

(** [message_chunks] with the limit as a parameter. *)
Definition chunks_by (n : nat) (s : pystr) : list pystr :=
  map (fun i => py_slice s i (i + n)) (py_range 0 (py_len s) n).

(** [clamp x lo hi]: [x] brought into the interval from [lo] to [hi]. *)
Definition clamp (x lo hi : Z) : Z :=
  if (x <? lo)%Z then lo else if (hi <? x)%Z then hi else x.

(** The shas notified for [repo], oldest first. *)
Definition shas_for (repo : pystr) (log : list (pystr * pystr)) : list pystr :=
  map snd (filter (fun p => fst p = repo) log).

(** How often [x] occurs in [l]. *)
Definition occurrences {A} `{EqDecision A} (x : A) (l : list A) : nat :=
  length (filter (fun y => y = x) l).

(** An environment in which every repository shows the one commit [c],
    whose detail has the given files, and every delivery succeeds. *)
Definition calm_world (c : commit) (files : list file_change) : world :=
  World (fun _ _ => ListReplies 200 [c])
        (fun _ _ => DetailReplies (Some files))
        (fun _ _ => Ok tt).

(** No sha of the list is followed at once by the same sha. *)
Definition no_repeat_in_a_row (l : list pystr) : Prop :=
  ∀ l1 a b l2, l = l1 ++ a :: b :: l2 → a ≠ b.

(** What the poll loop maintains: for every repository the tracker holds
    the sha notified last, and the notified shas never repeat in a row. *)
Definition tracker_invariant (st : state) : Prop :=
  ∀ repo,
    last (shas_for repo (appended st)) = last_commits st !! repo
    ∧ no_repeat_in_a_row (shas_for repo (appended st)).

(** A commit with the given sha and message. *)
Definition commit_at (commit_sha commit_message : pystr) : commit :=
  Commit commit_sha commit_message
         (str "https://github.com/a/b/commit/" ++ commit_sha)
         (str "https://api.github.com/repos/a/b/commits/" ++ commit_sha).

(** Three passes in which the head of the repository goes from 111 to 222
    and back to 111. *)
Definition head_moves_back : list world :=
  [calm_world (commit_at (str "111") (str "first")) [];
   calm_world (commit_at (str "222") (str "second")) [];
   calm_world (commit_at (str "111") (str "first")) []].

(** A summarizer that is out of service. *)
Definition summarizer_down : pystr -> Z -> Z -> result pystr :=
  fun _ _ _ => Raise RuntimeError.

(** A placeholder polarity scorer. *)
Definition no_polarity : pystr -> unit := fun _ => tt.

(** Nothing to report for the [i]-th repository: the list request gives no
    commit, or it gives the commit the tracker already holds and the
    detail request answers. *)
Definition quiet (w : world) (st : state) (i : nat) (repo : pystr) : Prop :=
  match get_latest_commit (get_commits w i) repo with
  | Ok None => True
  | Ok (Some c) =>
      last_commits st !! repo = Some (sha c)
      ∧ ∃ files, get_commit_files (get_detail w i (url c)) = Ok files
  | Raise _ => False
  end.

(** The [i]-th repository shows a commit and its detail. *)
Definition shows_commit (w : world) (i : nat) (repo : pystr) (c : commit) : Prop :=
  get_latest_commit (get_commits w i) repo = Ok (Some c)
  ∧ ∃ files, get_commit_files (get_detail w i (url c)) = Ok files.

(** The status codes for which [raise_for_status] raises. *)
Definition error_status (status_code : Z) : bool :=
  ((400 <=? status_code) && (status_code <? 600))%Z.

(** * Properties *)

(** ** Strings *)

Lemma starts_with_spec (w s : pystr) :
  starts_with w s = true ↔ ∃ post, s = w ++ post.
Proof.
  revert s. induction w as [|a w IH]; intros s; simpl.
  - split; [intros _; by exists s | done].
  - destruct s as [|b s].
    + split; [done | intros [post H]; discriminate H].
    + rewrite andb_true_iff, N.eqb_eq, IH. split.
      * intros [-> [post ->]]. by exists post.
      * intros [post H]. injection H as -> ->. split; [done | by exists post].
Qed.

Lemma py_contains_spec (w s : pystr) :
  py_contains w s = true ↔ occurs_in w s.
Proof.
  induction s as [|c s IH].
  - simpl. rewrite orb_false_r, starts_with_spec. split.
    + intros [post H]. by exists [], post.
    + intros (pre & post & H). symmetry in H.
      apply app_eq_nil in H as [_ H]. apply app_eq_nil in H as [-> ->].
      by exists [].
  - change (py_contains w (c :: s))
      with (starts_with w (c :: s) || py_contains w s).
    rewrite orb_true_iff, starts_with_spec, IH. split.
    + intros [[post H] | (pre & post & H)].
      * by exists [], post.
      * exists (c :: pre), post. by rewrite H.
    + intros ([|c' pre] & post & H).
      * left. by exists post.
      * right. injection H as _ ->. by exists pre, post.
Qed.

Lemma in_class_elem (cls : pystr) (c : N) :
  in_class cls c = true ↔ c ∈ cls.
Proof.
  unfold in_class. rewrite existsb_exists, list_elem_of_In. split.
  - by intros (x & Hx & ->%N.eqb_eq).
  - intros H. exists c. by rewrite N.eqb_refl.
Qed.

(** ** Escaping *)

Lemma re_sub_class_cons cls repl (c : N) (s : pystr) :
  re_sub_class cls repl (c :: s)
  = if in_class cls c
    then repl c ++ re_sub_class cls repl s
    else c :: re_sub_class cls repl s.
Proof. reflexivity. Qed.

Lemma re_sub_class_app cls repl (s1 s2 : pystr) :
  re_sub_class cls repl (s1 ++ s2)
  = re_sub_class cls repl s1 ++ re_sub_class cls repl s2.
Proof.
  induction s1 as [|c s1 IH]; [done|].
  rewrite <- app_comm_cons, !re_sub_class_cons, IH.
  destruct (in_class cls c); [|done].
  by rewrite <- app_assoc.
Qed.

Lemma escape_markdown_cons (c : N) (s : pystr) :
  escape_markdown (c :: s)
  = (if decide (c ∈ escape_chars) then [backslash; c] else [c])
    ++ escape_markdown s.
Proof.
  unfold escape_markdown. rewrite re_sub_class_cons.
  destruct (in_class escape_chars c) eqn:E.
  - apply in_class_elem in E. rewrite decide_True by done. reflexivity.
  - rewrite decide_False; [reflexivity|]. intros H%in_class_elem. congruence.
Qed.

Lemma escape_markdown_length (s : pystr) :
  length (escape_markdown s)
  = length s + length (filter (.∈ escape_chars) s).
Proof.
  induction s as [|c s IH]; [done|].
  rewrite escape_markdown_cons, length_app, IH, filter_cons.
  destruct (decide (c ∈ escape_chars)); simpl; lia.
Qed.

Lemma escape_markdown_sublist (s : pystr) : sublist s (escape_markdown s).
Proof.
  induction s as [|c s IH]; [constructor|].
  rewrite escape_markdown_cons.
  destruct (decide (c ∈ escape_chars)); simpl.
  - apply sublist_cons. by apply sublist_skip.
  - by apply sublist_skip.
Qed.


Lemma strip_markers_cons2 (c d : N) (r : pystr) :
  strip_markers (c :: d :: r)
  = if (c =? backslash)%N && in_class escape_chars d
    then strip_markers (d :: r)
    else c :: strip_markers (d :: r).
Proof. reflexivity. Qed.

Example escape_chars_eighteen : length escape_chars = 18 ∧ NoDup escape_chars.
Proof. split; [reflexivity|]. apply (bool_decide_unpack _). vm_compute. exact I. Qed.

Lemma backslash_not_escaped : backslash ∉ escape_chars.
Proof. intros H%in_class_elem. vm_compute in H. discriminate H. Qed.

(** An escaped text never begins with a character of the class. *)
Lemma escape_markdown_head (s : pystr) (d : N) (rest : pystr) :
  escape_markdown s = d :: rest → in_class escape_chars d = false.
Proof.
  destruct s as [|c s]; [done|].
  rewrite escape_markdown_cons.
  destruct (decide (c ∈ escape_chars)) as [Hc|Hc]; intros [= <- _].
  - apply not_true_is_false. intros H%in_class_elem.
    by apply backslash_not_escaped.
  - apply not_true_is_false. by intros H%in_class_elem.
Qed.

Lemma strip_markers_keep (c : N) (t : pystr) :
  (∀ d rest, t = d :: rest → in_class escape_chars d = false) →
  strip_markers (c :: t) = c :: strip_markers t.
Proof.
  intros Hhead. destruct t as [|d r]; [done|].
  rewrite strip_markers_cons2, (Hhead d r eq_refl), andb_false_r. done.
Qed.

Lemma strip_markers_escape (s : pystr) :
  strip_markers (escape_markdown s) = s.
Proof.
  induction s as [|c s IH]; [done|].
  rewrite escape_markdown_cons.
  destruct (decide (c ∈ escape_chars)) as [Hc|Hc].
  - change ([backslash; c] ++ escape_markdown s)
      with (backslash :: c :: escape_markdown s).
    rewrite strip_markers_cons2, N.eqb_refl.
    apply in_class_elem in Hc. rewrite Hc. simpl andb.
    rewrite strip_markers_keep, IH; [done|]. apply escape_markdown_head.
  - change ([c] ++ escape_markdown s) with (c :: escape_markdown s).
    rewrite strip_markers_keep, IH; [done|]. apply escape_markdown_head.
Qed.

(** C6, as amended. Every occurrence of a character of the class
    [_*[]()~`>#+-=|{}.!] is preceded by exactly one inserted backslash, every
    other character is copied as it is, and the original characters keep
    their order: the output is the input with one marker in front of each
    class character and nothing else, so taking the markers out gives the
    input back. The backslash is not in the class: a backslash of the input
    is copied, not escaped. *)
Theorem escape_markdown_spec (s s1 s2 : pystr) (c : N) :
  escape_markdown (s1 ++ c :: s2)
  = escape_markdown s1
    ++ (if decide (c ∈ escape_chars) then [backslash; c] else [c])
    ++ escape_markdown s2
  ∧ length (escape_markdown s) = length s + length (filter (.∈ escape_chars) s)
  ∧ strip_markers (escape_markdown s) = s
  ∧ sublist s (escape_markdown s)
  ∧ (backslash ∉ escape_chars)
  ∧ escape_markdown (s1 ++ backslash :: s2)
    = escape_markdown s1 ++ (backslash :: escape_markdown s2).
Proof.
  assert (Happ : ∀ a b, escape_markdown (a ++ b)
                        = escape_markdown a ++ escape_markdown b)
    by (intros; apply re_sub_class_app).
  repeat split.
  - by rewrite Happ, escape_markdown_cons.
  - apply escape_markdown_length.
  - apply strip_markers_escape.
  - apply escape_markdown_sublist.
  - apply backslash_not_escaped.
  - rewrite Happ, escape_markdown_cons.
    by rewrite decide_False by apply backslash_not_escaped.
Qed.

(** C6, as stated, fails: a backslash in the input is not escaped. *)
Lemma escape_markdown_backslash_unescaped :
  escape_markdown (str "a\b") = str "a\b"
  ∧ escape_markdown (str "a\b") ≠ str "a\\b".
Proof. split; [reflexivity | discriminate]. Qed.

(** ** Splitting *)

Section Chunks.
Variable n : nat.
Hypothesis n_pos : 0 < n.

Lemma chunks_by_eq (s : pystr) :
  chunks_by n s
  = map (fun k => take n (drop (k * n) s))
        (seq 0 ((length s + n - 1) / n)).
Proof.
  unfold chunks_by, py_range, py_len, py_slice.
  rewrite map_map, Nat.sub_0_r. apply map_ext. intros k.
  by replace (0 + k * n + n - (0 + k * n)) with n by lia.
Qed.

Lemma take_blocks (s : pystr) (m : nat) :
  concat (map (fun k => take n (drop (k * n) s)) (seq 0 m)) = take (m * n) s.
Proof.
  induction m as [|m IH]; [done|].
  rewrite seq_S, map_app, concat_app, IH. simpl.
  rewrite app_nil_r, take_take_drop. f_equal. lia.
Qed.

Lemma blocks_cover (len : nat) : len ≤ (len + n - 1) / n * n.
Proof.
  pose proof (Nat.div_mod_eq (len + n - 1) n) as E.
  pose proof (Nat.mod_upper_bound (len + n - 1) n) as U.
  lia.
Qed.

Lemma blocks_tight (len : nat) : (len + n - 1) / n * n < len + n.
Proof.
  pose proof (Nat.div_mod_eq (len + n - 1) n) as E. lia.
Qed.

Lemma chunks_by_concat (s : pystr) : concat (chunks_by n s) = s.
Proof.
  rewrite chunks_by_eq, take_blocks. apply take_ge, blocks_cover.
Qed.

Lemma chunks_by_count (s : pystr) :
  length (chunks_by n s) = (length s + n - 1) / n.
Proof. by rewrite chunks_by_eq, length_map, length_seq. Qed.

Lemma chunks_by_sizes (s : pystr) :
  Forall (fun chunk => 1 ≤ length chunk ≤ n) (chunks_by n s).
Proof.
  rewrite chunks_by_eq. apply Forall_forall. intros chunk Hin.
  apply list_elem_of_In, in_map_iff in Hin as (k & <- & Hk%in_seq).
  rewrite length_take, length_drop.
  pose proof (blocks_tight (length s)). nia.
Qed.
End Chunks.

Lemma chunk_limit_pos : 0 < chunk_limit.
Proof. unfold chunk_limit. lia. Qed.

Lemma send_chunks_run transport (chunks : list pystr) (st : state) :
  send_chunks transport chunks st
  = (Ok tt, State (last_commits st) (calls st ++ chunks) (appended st)).
Proof.
  revert st. induction chunks as [|chunk rest IH]; intros st.
  - destruct st. simpl. unfold mret, prog_ret. simpl. by rewrite app_nil_r.
  - simpl. unfold mbind, prog_bind, swallow, bot_send_message.
    destruct (transport (length (calls st)) chunk);
      simpl; rewrite IH; simpl; by rewrite <- app_assoc.
Qed.

(** C7. The notifier escapes the message, cuts the escaped text into
    contiguous pieces of at most 4000 characters and hands them to the
    transport one after the other, whatever the transport answers; the
    pieces in call order concatenate to the escaped text. An escaped text
    of 9000 characters makes exactly 3 calls. *)
Theorem send_telegram_message_splits transport (message : pystr) (st : state) :
  let safe_message := escape_markdown message in
  ∃ chunks : list pystr,
    send_telegram_message transport message st
    = (Ok tt, State (last_commits st) (calls st ++ chunks) (appended st))
    ∧ chunks = message_chunks safe_message
    ∧ concat chunks = safe_message
    ∧ Forall (fun chunk => 1 ≤ length chunk ≤ chunk_limit) chunks
    ∧ length chunks = (length safe_message + chunk_limit - 1) / chunk_limit
    ∧ (Z.of_nat (length safe_message) = 9000%Z → length chunks = 3).
Proof.
  intros safe_message. exists (message_chunks safe_message).
  change (message_chunks safe_message) with (chunks_by chunk_limit safe_message).
  pose proof chunk_limit_pos as Hpos.
  split; [apply send_chunks_run|]. split; [done|].
  split; [by apply chunks_by_concat|].
  split; [by apply chunks_by_sizes|].
  split; [by apply chunks_by_count|].
  intros Hlen. rewrite chunks_by_count by done.
  assert (length safe_message = 2 * chunk_limit + 1000) as ->
    by (unfold chunk_limit; lia).
  symmetry. apply (Nat.div_unique _ _ 3 999); unfold chunk_limit; lia.
Qed.

Lemma send_telegram_message_splits_witness :
  length (calls (snd (send_telegram_message (fun _ _ => Raise TelegramError)
                        (replicate (N.to_nat 9000) 97%N) initial_state))) = 3.
Proof.
  destruct (send_telegram_message_splits (fun _ _ => Raise TelegramError)
              (replicate (N.to_nat 9000) 97%N) initial_state)
    as (chunks & -> & _ & _ & _ & _ & Hthree).
  simpl. apply Hthree. vm_compute. reflexivity.
Defined.

(** C10. Some message is cut between an inserted backslash and the
    character it escapes: the first piece ends with the marker and the
    second piece begins with the escaped character. *)
Theorem chunk_boundary_splits_escape_pair :
  ∃ (message first second : pystr) (c : N),
    message = replicate 3999 97%N ++ str "_"
    ∧ (backslash ∉ message)
    ∧ c ∈ escape_chars
    ∧ message_chunks (escape_markdown message) = [first; second]
    ∧ (∀ transport,
         calls (snd (send_telegram_message transport message initial_state))
         = [first; second])
    ∧ last first = Some backslash
    ∧ head second = Some c
    ∧ first ++ second = escape_markdown message.
Proof.
  exists (replicate 3999 97%N ++ str "_"),
         (replicate 3999 97%N ++ [backslash]), (str "_"), 95%N.
  assert (Hchunks :
    message_chunks (escape_markdown (replicate 3999 97%N ++ str "_"))
    = [replicate 3999 97%N ++ [backslash]; str "_"])
    by (vm_compute; reflexivity).
  split; [reflexivity|].
  split; [apply (bool_decide_unpack _); vm_compute; exact I|].
  split; [apply (bool_decide_unpack _); vm_compute; exact I|].
  split; [exact Hchunks|].
  split.
  - intros transport. unfold send_telegram_message.
    rewrite send_chunks_run, Hchunks. reflexivity.
  - repeat split; vm_compute; reflexivity.
Qed.

(** ** Summarizer *)

Lemma py_prefix_take (s : pystr) (n : nat) : py_prefix s n = take n s.
Proof. unfold py_prefix, py_slice. by rewrite Nat.sub_0_r. Qed.

Example py_split_words :
  py_split (str "  fix   the bug ") = [str "fix"; str "the"; str "bug"].
Proof. reflexivity. Qed.

(** C8. The bounds handed to the summarizer: [max_length] is the word count
    less one, brought into the interval from 10 to 50, and [min_length] is
    the larger of 5 and the floor of half of [max_length]; so
    5 <= min_length <= max_length <= 50 and 10 <= max_length. *)
Theorem summarize_bounds summarizer (text : pystr) :
  let word_count := Z.of_nat (length (py_split text)) in
  (max_length text = clamp (word_count - 1) 10 50
   ∧ max_length text = Z.min 50 (Z.max 10 (word_count - 1))
   ∧ min_length text = Z.max 5 (max_length text / 2)
   ∧ 5 ≤ min_length text ≤ max_length text
   ∧ 10 ≤ max_length text ≤ 50
   ∧ summarize_text summarizer text
     = match summarizer text (max_length text) (min_length text) with
       | Ok summary => summary
       | Raise _ => take 200 text
       end)%Z.
Proof.
  intros word_count.
  assert (Hmax : (10 ≤ max_length text ≤ 50)%Z) by (unfold max_length; lia).
  assert (Hhalf : (max_length text / 2 ≤ max_length text)%Z)
    by (apply Z.div_le_upper_bound; lia).
  split; [|split; [done|]; split; [done|]; split; [unfold min_length; lia|]].
  - unfold max_length, clamp. fold word_count.
    destruct (Z.ltb_spec (word_count - 1) 10);
      [|destruct (Z.ltb_spec 50 (word_count - 1))]; lia.
  - split; [done|]. unfold summarize_text. by rewrite py_prefix_take.
Qed.

(** C3. When the summarization call raises, [summarize_text] returns the
    first 200 characters of the text as they are, the whole text when it
    has at most 200 characters, and so never an empty summary for a text
    that is not empty. *)
Theorem summarize_text_fallback summarizer (text : pystr) (e : exn) :
  summarizer text (max_length text) (min_length text) = Raise e →
  summarize_text summarizer text = take 200 text
  ∧ (length text ≤ 200 → summarize_text summarizer text = text)
  ∧ (text ≠ [] → summarize_text summarizer text ≠ []).
Proof.
  intros Hfail. unfold summarize_text. rewrite Hfail, py_prefix_take.
  split; [done|]. split.
  - intros Hshort. by apply take_ge.
  - intros Hne. by destruct text.
Qed.

Lemma summarize_text_fallback_witness :
  summarize_text summarizer_down (str "fix vulnerability in parser")
  = str "fix vulnerability in parser".
Proof.
  destruct (summarize_text_fallback summarizer_down
              (str "fix vulnerability in parser") RuntimeError eq_refl)
    as (_ & Hshort & _).
  apply Hshort. vm_compute. lia.
Defined.

(** ** Classifier *)

Lemma mentions_spec (terms : list pystr) (lowered : pystr) :
  existsb (fun word => py_contains word lowered) terms = true
  ↔ mentions terms lowered.
Proof.
  unfold mentions. rewrite existsb_exists.
  setoid_rewrite list_elem_of_In. by setoid_rewrite py_contains_spec.
Qed.

Lemma truthy_filenames (st : pystr) (files : list file_change) :
  truthy (map filename (filter (fun f => status f = st) files)) = true
  ↔ files_with st files ≠ [].
Proof. unfold files_with. by destruct (filter _ files). Qed.

Lemma bullish_signal_spec (lowered : pystr) (files : list file_change) :
  existsb (fun word => py_contains word lowered) bullish_terms
  || truthy (map filename (filter (fun f => status f = str "added") files))
  = true ↔ bullish_signal lowered files.
Proof.
  unfold bullish_signal. by rewrite orb_true_iff, mentions_spec, truthy_filenames.
Qed.

Lemma bearish_signal_spec (lowered : pystr) (files : list file_change) :
  existsb (fun word => py_contains word lowered) bearish_terms
  || truthy (map filename (filter (fun f => status f = str "removed") files))
  = true ↔ bearish_signal lowered files.
Proof.
  unfold bearish_signal. by rewrite orb_true_iff, mentions_spec, truthy_filenames.
Qed.

(** C1. The decision of [analyze_commit], first match first: a bullish
    keyword occurring in the lower-cased message or an entry with status
    [added] gives the bullish label and rationale; failing that, a bearish
    keyword or an entry with status [removed] gives the bearish ones;
    failing both, the neutral ones. Keywords match as substrings. An added
    file gives the bullish label whatever the message says. The label
    strings are the words Bullish, Bearish and Neutral followed by a space
    and a pictograph. *)
Theorem analyze_commit_decision summarizer lower {score} (polarity : pystr → score)
    (commit_message : pystr) (commit_files : list file_change) :
  let lowered := lower commit_message in
  let out := analyze_commit summarizer lower polarity commit_message commit_files in
  out.1.1 = summarize_text summarizer commit_message
  ∧ (bullish_signal lowered commit_files
       ∧ out.1.2 = label_bullish ∧ out.2 = why_bullish
     ∨ ¬ bullish_signal lowered commit_files
       ∧ bearish_signal lowered commit_files
       ∧ out.1.2 = label_bearish ∧ out.2 = why_bearish
     ∨ ¬ bullish_signal lowered commit_files
       ∧ ¬ bearish_signal lowered commit_files
       ∧ out.1.2 = label_neutral ∧ out.2 = why_neutral)
  ∧ (files_with (str "added") commit_files ≠ [] →
     out.1.2 = label_bullish ∧ out.2 = why_bullish).
Proof.
  intros lowered out. subst out. unfold analyze_commit. fold lowered.
  pose proof (bullish_signal_spec lowered commit_files) as Hbull.
  pose proof (bearish_signal_spec lowered commit_files) as Hbear.
  destruct (existsb _ bullish_terms || truthy _);
    destruct (existsb _ bearish_terms || truthy _); simpl;
    (split; [done|]).
  1, 2: assert (bullish_signal lowered commit_files) as Hb by by apply Hbull.
  1, 2: by split; [left|].
  all: assert (¬ bullish_signal lowered commit_files) as Hnb
      by (intros H%Hbull; discriminate H).
  all: split; [|intros Hadd; destruct Hnb; by right].
  - right; left. split; [done|]. split; [by apply Hbear | done].
  - right; right. split; [done|]. split; [|done].
    intros H%Hbear. discriminate H.
Qed.

Lemma analyze_commit_decision_witness :
  (analyze_commit summarizer_down ascii_lower no_polarity
     (str "Fix bug, rollback") [FileChange (str "new.py") (str "added")]).1.2
  = label_bullish.
Proof.
  destruct (analyze_commit_decision summarizer_down ascii_lower no_polarity
              (str "Fix bug, rollback") [FileChange (str "new.py") (str "added")])
    as (_ & _ & Hadded).
  apply Hadded. vm_compute. discriminate.
Defined.

(** Keywords match inside longer words: [fix] is found in [prefix]. *)
Example analyze_commit_prefix :
  analyze_commit summarizer_down ascii_lower no_polarity (str "Prefix") []
  = (str "Prefix", label_bearish, why_bearish).
Proof. reflexivity. Qed.

(** ** Change tracker *)

(** C9. The newness test is true exactly when the tracker has no entry for
    the repository or the stored sha differs from the given one: true for
    a repository never recorded, false right after recording the same sha,
    true again once a different sha has been recorded. *)
Theorem is_new_spec (seen : gmap pystr pystr) (repo commit_sha other_sha : pystr) :
  (is_new seen repo commit_sha = true
   ↔ seen !! repo = None
     ∨ ∃ stored, seen !! repo = Some stored ∧ stored ≠ commit_sha)
  ∧ is_new ∅ repo commit_sha = true
  ∧ is_new (record seen repo commit_sha) repo commit_sha = false
  ∧ (other_sha ≠ commit_sha →
     is_new (record (record seen repo commit_sha) repo other_sha) repo commit_sha
     = true).
Proof.
  unfold is_new, record. repeat split.
  - destruct (seen !! repo) as [stored|]; [|by left].
    intros H%bool_decide_eq_true. right. by exists stored.
  - intros [H | (stored & H & Hne)]; rewrite H; [done|].
    by apply bool_decide_eq_true.
  - by rewrite lookup_insert_eq, bool_decide_eq_false; intros H; apply H.
  - intros Hne. rewrite lookup_insert_eq. by apply bool_decide_eq_true.
Qed.

Lemma is_new_spec_witness :
  is_new (record (record ∅ (str "a/b") (str "111")) (str "a/b") (str "222"))
         (str "a/b") (str "111") = true.
Proof.
  destruct (is_new_spec ∅ (str "a/b") (str "111") (str "222"))
    as (_ & _ & _ & Hagain).
  apply Hagain. discriminate.
Defined.

(** ** Fetcher *)

(** What [get_latest_commit] does for each answer of the remote. *)
Lemma get_latest_commit_cases get_commits (repo : pystr) :
  get_latest_commit get_commits repo
  = match get_commits (commits_url repo) with
    | ListFails _ => Ok None
    | ListReplies status_code body =>
        if ((400 <=? status_code) && (status_code <? 600))%Z then Ok None
        else match body with
             | [] => Raise IndexError
             | c :: _ => Ok (Some c)
             end
    | ListGarbled _ => Ok None
    | ListNotArray status_code body =>
        if ((400 <=? status_code) && (status_code <? 600))%Z then Ok None
        else Raise (subscript_error body)
    end.
Proof.
  unfold get_latest_commit.
  destruct (get_commits (commits_url repo))
    as [[]|status_code body|status_code|status_code body]; try done;
    unfold raise_for_status;
    destruct ((400 <=? status_code) && (status_code <? 600))%Z; try done.
  - by destruct body.
  - by destruct body.
Qed.

(** C4 at the failing input: the remote answers with status 200 and an
    empty commit list, and [get_latest_commit] raises [IndexError], which
    its [except] clause does not name. *)
Theorem get_latest_commit_empty_list (repo : pystr) :
  get_latest_commit (fun _ => ListReplies 200 []) repo = Raise IndexError.
Proof. reflexivity. Qed.

(** The exception leaves [track_repos]. *)
Example empty_list_stops_track_repos (rest : list world) :
  track_repos summarizer_down ascii_lower no_polarity [str "a/b"]
    (World (fun _ _ => ListReplies 200 []) (fun _ _ => DetailReplies None)
           (fun _ _ => Ok tt) :: rest) initial_state
  = (Some (IndexError, rest), initial_state).
Proof. reflexivity. Qed.

(** ** Detail request *)

(** A detail object without [files] stands for no files. *)
Lemma get_commit_files_default :
  get_commit_files (DetailReplies None) = Ok [].
Proof. reflexivity. Qed.

(** C5 at the failing input: the list request succeeds and the detail
    request finds the remote unreachable. The exception leaves the pass
    over the repositories; nothing is substituted, classified or sent, and
    the state is as before. *)
Theorem detail_failure_aborts_cycle summarizer lower {score}
    (polarity : pystr → score) (repo : pystr) (c : commit)
    (f : transport_failure) transport (st : state) :
  poll_cycle summarizer lower polarity [repo]
    (World (fun _ _ => ListReplies 200 [c]) (fun _ _ => DetailFails f) transport)
    st
  = (Raise (exn_of_failure f), st).
Proof. reflexivity. Qed.

(** With it goes the batch of the pass: the update of an earlier
    repository is recorded as seen and never sent. Here the first pass
    meets a new commit of [a/b] and then fails on the detail of [c/d]; the
    second pass is calm. The only text ever sent is the update of [c/d]. *)
Example detail_failure_drops_batch :
  let w := World (fun _ _ => ListReplies 200 [commit_at (str "111") (str "first")])
                 (fun i _ => match i with
                             | 0 => DetailReplies None
                             | _ => DetailFails Unreachable
                             end)
                 (fun _ _ => Ok tt) in
  let st1 := main_loop summarizer_down ascii_lower no_polarity
               [str "a/b"; str "c/d"] [w] initial_state in
  let st2 := main_loop summarizer_down ascii_lower no_polarity
               [str "a/b"; str "c/d"]
               [calm_world (commit_at (str "111") (str "first")) []] st1 in
  last_commits st1 !! str "a/b" = Some (str "111")
  ∧ appended st1 = [(str "a/b", str "111")]
  ∧ calls st1 = []
  ∧ appended st2 = [(str "a/b", str "111"); (str "c/d", str "111")]
  ∧ map (py_contains (str "a/b Update")) (calls st2) = [false]
  ∧ map (py_contains (str "c/d Update")) (calls st2) = [true].
Proof. vm_compute. done. Qed.

(** ** Poll loop and deduplication *)

(** X24. The restart wrapper loses no state: running [track_repos] until a
    pass raises and starting it again on the passes that remain comes to
    one pass per world on the same tracker, calls and log. *)
Lemma main_loop_restarts summarizer lower {score} (polarity : pystr → score)
    REPOS (ws : list world) (st : state) :
  main_loop summarizer lower polarity REPOS ws st
  = match track_repos summarizer lower polarity REPOS ws st with
    | (None, st') => st'
    | (Some (_, rest), st') => main_loop summarizer lower polarity REPOS rest st'
    end.
Proof.
  revert st. induction ws as [|w ws IH]; intros st; [done|].
  simpl. destruct (poll_cycle _ _ _ _ w st) as [[[]|e] st']; simpl; [|done].
  apply IH.
Qed.

Lemma shas_for_app (repo : pystr) (l1 l2 : list (pystr * pystr)) :
  shas_for repo (l1 ++ l2) = shas_for repo l1 ++ shas_for repo l2.
Proof. unfold shas_for. by rewrite filter_app, map_app. Qed.

Lemma shas_for_cons (repo r commit_sha : pystr) (l : list (pystr * pystr)) :
  shas_for repo ((r, commit_sha) :: l)
  = if decide (r = repo) then commit_sha :: shas_for repo l else shas_for repo l.
Proof.
  unfold shas_for. rewrite filter_cons. simpl.
  by destruct (decide (r = repo)).
Qed.

Lemma no_repeat_snoc (l : list pystr) (x : pystr) :
  no_repeat_in_a_row l → last l ≠ Some x → no_repeat_in_a_row (l ++ [x]).
Proof.
  intros Hl Hlast l1 a b l2 E.
  destruct l2 as [|y l2 _] using rev_ind.
  - change (l1 ++ [a; b]) with (l1 ++ [a] ++ [b]) in E.
    rewrite app_assoc in E. apply app_inj_tail in E as [-> ->].
    rewrite last_snoc in Hlast. congruence.
  - change (l1 ++ a :: b :: l2 ++ [y]) with (l1 ++ (a :: b :: l2) ++ [y]) in E.
    rewrite app_assoc in E. apply app_inj_tail in E as [-> _].
    by eapply Hl.
Qed.

Lemma tracker_invariant_initial : tracker_invariant initial_state.
Proof. intros repo. split; [done|]. by intros [|? ?] a b l2 E. Qed.

(** Recording a new sha and noting the notification keeps the invariant. *)
Lemma tracker_invariant_notify (st : state) (repo commit_sha : pystr) :
  tracker_invariant st →
  is_new (last_commits st) repo commit_sha = true →
  tracker_invariant
    (State (record (last_commits st) repo commit_sha) (calls st)
           (appended st ++ [(repo, commit_sha)])).
Proof.
  intros Hinv Hnew other. destruct (Hinv other) as [Hlast Hrep].
  simpl. unfold record.
  rewrite shas_for_app, shas_for_cons.
  destruct (decide (repo = other)) as [->|Hne].
  - rewrite lookup_insert_eq. split; [apply last_snoc|].
    apply no_repeat_snoc; [done|]. rewrite Hlast.
    unfold is_new in Hnew. destruct (last_commits st !! other); [|done].
    apply bool_decide_eq_true in Hnew. congruence.
  - rewrite lookup_insert_ne by done. by rewrite app_nil_r.
Qed.

(** A visit leaves the state alone or records and notes one new sha. *)
Lemma visit_repo_state summarizer lower {score} (polarity : pystr → score)
    (w : world) (i : nat) (repo : pystr) (messages : list pystr) (st : state) :
  let st' := snd (visit_repo summarizer lower polarity w i repo messages st) in
  st' = st
  ∨ ∃ commit_sha,
      is_new (last_commits st) repo commit_sha = true
      ∧ st' = State (record (last_commits st) repo commit_sha) (calls st)
                    (appended st ++ [(repo, commit_sha)]).
Proof.
  unfold visit_repo, mbind, prog_bind, lift.
  destruct (get_latest_commit (get_commits w i) repo) as [[c|]|e];
    simpl; [|by left..].
  destruct (get_commit_files _) as [files|e]; simpl; [|by left].
  destruct (is_new (last_commits st) repo (sha c)) eqn:Hnew; simpl; [|by left].
  destruct (analyze_commit _ _ _ _ _) as [[summary sentiment] explanation].
  simpl. right. by exists (sha c).
Qed.

Lemma visit_repo_invariant summarizer lower {score} (polarity : pystr → score)
    (w : world) (i : nat) (repo : pystr) (messages : list pystr) (st : state) :
  tracker_invariant st →
  tracker_invariant (snd (visit_repo summarizer lower polarity w i repo messages st)).
Proof.
  intros Hinv.
  destruct (visit_repo_state summarizer lower polarity w i repo messages st)
    as [-> | (commit_sha & Hnew & ->)]; [done|].
  by apply tracker_invariant_notify.
Qed.

Lemma for_repos_invariant summarizer lower {score} (polarity : pystr → score)
    (w : world) (repos : list pystr) (i : nat) (messages : list pystr)
    (st : state) :
  tracker_invariant st →
  tracker_invariant (snd (for_repos summarizer lower polarity w i repos messages st)).
Proof.
  revert i messages st.
  induction repos as [|repo rest IH]; intros i messages st Hinv; [done|].
  simpl. unfold mbind, prog_bind.
  pose proof (visit_repo_invariant summarizer lower polarity w i repo messages
                st Hinv) as Hstep.
  destruct (visit_repo _ _ _ w i repo messages st) as [[messages'|e] st'];
    simpl in *; [by apply IH | done].
Qed.

Lemma poll_cycle_invariant summarizer lower {score} (polarity : pystr → score)
    REPOS (w : world) (st : state) :
  tracker_invariant st →
  tracker_invariant (snd (poll_cycle summarizer lower polarity REPOS w st)).
Proof.
  intros Hinv. unfold poll_cycle, mbind, prog_bind.
  pose proof (for_repos_invariant summarizer lower polarity w REPOS 0 [] st Hinv)
    as Hfor.
  destruct (for_repos _ _ _ w 0 REPOS [] st) as [[messages|e] st'];
    simpl in *; [|done].
  destruct (truthy messages); [|done].
  unfold send_telegram_message. by rewrite send_chunks_run.
Qed.

Lemma main_loop_invariant summarizer lower {score} (polarity : pystr → score)
    REPOS (ws : list world) (st : state) :
  tracker_invariant st →
  tracker_invariant (main_loop summarizer lower polarity REPOS ws st).
Proof.
  revert st. induction ws as [|w ws IH]; intros st Hinv; [done|].
  simpl. by apply IH, poll_cycle_invariant.
Qed.

Lemma all_equal_prefix (x : pystr) (m rest : list pystr) :
  Forall (fun y => y = x) m → ∃ tail, m ++ x :: rest = x :: tail.
Proof.
  intros Hall. destruct Hall as [|y m -> _]; [by exists rest|].
  by exists (m ++ x :: rest).
Qed.

(** C2, as stated, fails: the head of a repository goes from 111 to 222 and
    back, no pass raises, and the pair (a/b, 111) is appended twice. *)
Lemma same_pair_notified_twice :
  fst (track_repos summarizer_down ascii_lower no_polarity [str "a/b"]
         head_moves_back initial_state) = None
  ∧ occurrences (str "a/b", str "111")
      (appended (main_loop summarizer_down ascii_lower no_polarity [str "a/b"]
                   head_moves_back initial_state)) = 2.
Proof. split; vm_compute; reflexivity. Qed.

(** What a visit does to the state, case by case. *)
Lemma visit_repo_step summarizer lower {score} (polarity : pystr → score)
    (w : world) (i : nat) (repo : pystr) (messages : list pystr) (st : state) :
  snd (visit_repo summarizer lower polarity w i repo messages st)
  = match get_latest_commit (get_commits w i) repo with
    | Ok (Some c) =>
        match get_commit_files (get_detail w i (url c)) with
        | Ok _ =>
            if decide (last_commits st !! repo = Some (sha c)) then st
            else State (<[repo := sha c]> (last_commits st)) (calls st)
                       (appended st ++ [(repo, sha c)])
        | Raise _ => st
        end
    | _ => st
    end.
Proof.
  unfold visit_repo, mbind, prog_bind, lift.
  destruct (get_latest_commit (get_commits w i) repo) as [[c|]|e];
    simpl; [|done..].
  destruct (get_commit_files _) as [files|e]; simpl; [|done].
  unfold is_new.
  destruct (decide (last_commits st !! repo = Some (sha c))) as [Hseen|Hnew].
  - rewrite Hseen. by rewrite bool_decide_eq_false_2 by (intros H; by apply H).
  - assert (match last_commits st !! repo with
            | Some stored => bool_decide (stored ≠ sha c)
            | None => true
            end = true) as ->.
    { destruct (last_commits st !! repo) as [stored|]; [|done].
      apply bool_decide_eq_true. congruence. }
    simpl.
    by destruct (analyze_commit _ _ _ _ _) as [[summary sentiment] explanation].
Qed.

(** C2, as amended. For every sequence of answers of the remote and every
    state the loop reaches: the tracker holds, for each repository, the sha
    of its latest notification and nothing else. A visit appends a
    notification for (repository, sha) exactly when the list request gives
    a commit with that sha, the detail request answers, and the sha differs
    from the one the tracker holds for the repository (or the tracker holds
    none); it then records the sha. In every other case, also when the
    detail request raises, the visit appends nothing and leaves the tracker
    as it is. So the same (repository, sha) pair is never notified twice in
    a row: between two notifications of one pair lies a notification of
    the same repository with a different sha. *)
Theorem notified_again_only_after_change summarizer lower {score}
    (polarity : pystr → score) REPOS (ws : list world) :
  let st := main_loop summarizer lower polarity REPOS ws initial_state in
  (∀ repo, last (shas_for repo (appended st)) = last_commits st !! repo)
  ∧ (∀ repo commit_sha l1 l2 l3,
       appended st = l1 ++ (repo, commit_sha) :: l2 ++ (repo, commit_sha) :: l3 →
       ∃ other, other ≠ commit_sha ∧ (repo, other) ∈ l2)
  ∧ (∀ (s : state) (w : world) (i : nat) (repo : pystr) (messages : list pystr),
       snd (visit_repo summarizer lower polarity w i repo messages s)
       = match get_latest_commit (get_commits w i) repo with
         | Ok (Some c) =>
             match get_commit_files (get_detail w i (url c)) with
             | Ok _ =>
                 if decide (last_commits s !! repo = Some (sha c)) then s
                 else State (<[repo := sha c]> (last_commits s)) (calls s)
                            (appended s ++ [(repo, sha c)])
             | Raise _ => s
             end
         | _ => s
         end).
Proof.
  intros st.
  assert (Hinv : tracker_invariant st)
    by apply main_loop_invariant, tracker_invariant_initial.
  split; [intros repo; apply Hinv|].
  split; [|intros; apply visit_repo_step].
  intros repo commit_sha l1 l2 l3 E.
  destruct (Hinv repo) as [_ Hrep]. rewrite E in Hrep.
  rewrite shas_for_app, shas_for_cons, decide_True in Hrep by done.
  rewrite shas_for_app, shas_for_cons, decide_True in Hrep by done.
  destruct (Forall_Exists_dec (fun y => y = commit_sha) (fun y => y ≠ commit_sha)
              (fun y => decide (y = commit_sha)) (shas_for repo l2))
    as [Hall | Hex].
  - destruct (all_equal_prefix commit_sha _ (shas_for repo l3) Hall)
      as [tail Htail].
    rewrite Htail in Hrep. by destruct (Hrep _ _ _ _ eq_refl).
  - apply Exists_exists in Hex as (other & Hin & Hne).
    exists other. split; [done|].
    unfold shas_for in Hin.
    apply list_elem_of_In in Hin.
    apply in_map_iff in Hin as ([r o] & Ho & Hin). simpl in Ho. subst o.
    apply list_elem_of_In in Hin.
    apply list_elem_of_filter in Hin as [Hr Hin].
    simpl in Hr. by subst r.
Qed.

Lemma notified_again_only_after_change_witness :
  ∃ other, other ≠ str "111" ∧ (str "a/b", other) ∈ [(str "a/b", str "222")].
Proof.
  destruct (notified_again_only_after_change summarizer_down ascii_lower
              no_polarity [str "a/b"] head_moves_back) as (_ & Hbetween & _).
  apply (Hbetween (str "a/b") (str "111") [] [(str "a/b", str "222")] []).
  vm_compute. reflexivity.
Defined.

(** A new sha is not notified while the detail request raises: the list
    request shows 111, the tracker holds 000, and three passes append
    nothing. *)
Example no_notification_without_detail :
  let w := World (fun _ _ => ListReplies 200 [commit_at (str "111") (str "first")])
                 (fun _ _ => DetailFails Unreachable) (fun _ _ => Ok tt) in
  main_loop summarizer_down ascii_lower no_polarity [str "a/b"] [w; w; w]
    (State {[ str "a/b" := str "000" ]} [] [])
  = State {[ str "a/b" := str "000" ]} [] [].
Proof. reflexivity. Qed.

(** The scenario of the specification: [a/b] was last seen at 111 and the
    remote now shows 222 with the message "fix vulnerability in parser" and
    no changed files. The commit is classified as bearish, the tracker
    moves to 222 and one notification goes out. *)
Example end_to_end_scenario :
  let c := commit_at (str "222") (str "fix vulnerability in parser") in
  let before := State {[ str "a/b" := str "111" ]} [] [] in
  let after := main_loop summarizer_down ascii_lower no_polarity [str "a/b"]
                 [calm_world c []] before in
  analyze_commit summarizer_down ascii_lower no_polarity (message c) []
  = (str "fix vulnerability in parser", label_bearish, why_bearish)
  ∧ last_commits after !! str "a/b" = Some (str "222")
  ∧ appended after = [(str "a/b", str "222")]
  ∧ calls after
    = [escape_markdown
         (format_update (str "a/b") (str "fix vulnerability in parser")
            label_bearish why_bearish (html_url c))].
Proof. vm_compute. done. Qed.

(** * Further properties *)

(** ** Escaping, continued *)

(** X1. Escaping loses nothing: two texts with the same escaped form are
    the same text. *)
Theorem escape_markdown_injective (s t : pystr) :
  escape_markdown s = escape_markdown t ↔ s = t.
Proof.
  split; [|by intros ->].
  intros E. by rewrite <- (strip_markers_escape s), E, strip_markers_escape.
Qed.

Lemma escape_markdown_injective_witness :
  escape_markdown (str "a_b") ≠ escape_markdown (str "a\_b").
Proof.
  intros E. apply escape_markdown_injective in E. discriminate E.
Defined.

Lemma escape_markdown_grows (s : pystr) :
  length s ≤ length (escape_markdown s) ∧ length (escape_markdown s) ≤ 2 * length s.
Proof.
  rewrite escape_markdown_length.
  pose proof (length_filter (.∈ escape_chars) s). lia.
Qed.

(** X2. The escaped text is at least as long as the text and at most twice
    as long. *)
Theorem escape_markdown_length_bounds (s : pystr) :
  length s ≤ length (escape_markdown s) ≤ 2 * length s.
Proof. apply escape_markdown_grows. Qed.

Lemma escape_markdown_plain (s : pystr) :
  Forall (fun c => c ∉ escape_chars) s → escape_markdown s = s.
Proof.
  induction 1 as [|c s Hc _ IH]; [done|].
  by rewrite escape_markdown_cons, decide_False, IH.
Qed.

Lemma escape_markdown_fixed (s : pystr) :
  escape_markdown s = s → Forall (fun c => c ∉ escape_chars) s.
Proof.
  induction s as [|c s IH]; [constructor|].
  rewrite escape_markdown_cons.
  destruct (decide (c ∈ escape_chars)) as [Hc|Hc].
  - intros [= <- _]. by destruct backslash_not_escaped.
  - intros [= E]. constructor; [done | by apply IH].
Qed.

(** X3. Escaping leaves a text as it is exactly when the text has no
    character of the class; on every other text escaping twice differs
    from escaping once. *)
Theorem escape_markdown_fixed_points (s : pystr) :
  (escape_markdown s = s ↔ Forall (fun c => c ∉ escape_chars) s)
  ∧ (escape_markdown (escape_markdown s) = escape_markdown s
     ↔ Forall (fun c => c ∉ escape_chars) s).
Proof.
  split; [split; [apply escape_markdown_fixed | apply escape_markdown_plain]|].
  split.
  - intros E. apply escape_markdown_fixed in E.
    eapply Forall_forall. intros c Hc.
    eapply (proj1 (Forall_forall _ _) E), elem_of_sublist;
      [apply Hc | apply escape_markdown_sublist].
  - intros Hplain. rewrite (escape_markdown_plain s Hplain).
    by apply escape_markdown_plain.
Qed.

Lemma escape_markdown_fixed_points_witness :
  escape_markdown (str "plain text") = str "plain text"
  ∧ escape_markdown (escape_markdown (str "v1.2")) ≠ escape_markdown (str "v1.2").
Proof.
  destruct (escape_markdown_fixed_points (str "plain text")) as [[_ Hplain] _].
  destruct (escape_markdown_fixed_points (str "v1.2")) as [_ [Htwice _]].
  split.
  - apply Hplain. apply (bool_decide_unpack _). vm_compute. exact I.
  - intros E. apply Htwice in E.
    apply (proj1 (Forall_forall _ _) E 46%N); apply (bool_decide_unpack _);
      vm_compute; exact I.
Defined.

(** X4. In the escaped text every character of the class stands right
    after a backslash. *)
Theorem escape_markdown_well_escaped (s pre post : pystr) (c : N) :
  escape_markdown s = pre ++ c :: post →
  c ∈ escape_chars →
  ∃ pre', pre = pre' ++ [backslash].
Proof.
  revert pre. induction s as [|a s IH]; intros pre E Hc.
  - by destruct pre.
  - rewrite escape_markdown_cons in E.
    destruct (decide (a ∈ escape_chars)) as [Ha|Ha].
    + destruct pre as [|p1 [|p2 pre]].
      * injection E as <- _. by destruct backslash_not_escaped.
      * injection E as <- _ _. by exists [].
      * injection E as <- <- E. destruct (IH pre E Hc) as [pre' ->].
        by exists (backslash :: a :: pre').
    + destruct pre as [|p1 pre].
      * injection E as <- _. done.
      * injection E as <- E. destruct (IH pre E Hc) as [pre' ->].
        by exists (a :: pre').
Qed.

Lemma escape_markdown_well_escaped_witness :
  ∃ pre', str "a\" = pre' ++ [backslash].
Proof.
  apply (escape_markdown_well_escaped (str "a_b") (str "a\") (str "b") 95%N).
  - reflexivity.
  - apply (bool_decide_unpack _). vm_compute. exact I.
Defined.

(** X5. Escaping the joined batch is the same as joining the escaped
    messages: the blank-line separator has no character of the class. *)
Theorem escape_markdown_join (messages : list pystr) :
  escape_markdown (py_join [newline; newline] messages)
  = py_join [newline; newline] (map escape_markdown messages).
Proof.
  induction messages as [|m rest IH]; [done|].
  destruct rest as [|m' rest]; [done|].
  change (py_join [newline; newline] (m :: m' :: rest))
    with (m ++ [newline; newline] ++ py_join [newline; newline] (m' :: rest)).
  unfold escape_markdown at 1.
  rewrite !re_sub_class_app. fold (escape_markdown m).
  fold (escape_markdown (py_join [newline; newline] (m' :: rest))).
  by rewrite IH.
Qed.

(** X6. The markup of the notification template does not survive: the
    asterisks, brackets and parentheses that [format_update] writes are
    escaped along with the fields, since the whole text is escaped. *)
Theorem escape_markdown_format_update
    (repo summary sentiment explanation commit_url : pystr) :
  escape_markdown (format_update repo summary sentiment explanation commit_url)
  = [0x1F514%N] ++ str " \*\*" ++ escape_markdown repo ++ str " Update\*\*"
    ++ [newline]
    ++ [0x1F4DD%N] ++ str " " ++ escape_markdown summary ++ [newline]
    ++ [0x1F4CA%N] ++ str " Sentiment: " ++ escape_markdown sentiment ++ [newline]
    ++ [0x1F9D0%N] ++ str " Reason: " ++ escape_markdown explanation ++ [newline]
    ++ [0x1F517%N] ++ str " \[View Commit\]\(" ++ escape_markdown commit_url
    ++ str "\)".
Proof.
  unfold format_update, escape_markdown.
  rewrite !re_sub_class_app. reflexivity.
Qed.

(** ** Splitting, continued *)

Lemma blocks_index (n len k : nat) :
  0 < n → k < (len + n - 1) / n ↔ k * n < len.
Proof.
  intros Hn.
  pose proof (blocks_cover n Hn len). pose proof (blocks_tight n Hn len).
  split; intros; nia.
Qed.

Lemma chunks_by_lookup (n : nat) (s : pystr) (k : nat) :
  0 < n →
  chunks_by n s !! k
  = if decide (k * n < length s) then Some (take n (drop (k * n) s)) else None.
Proof.
  intros Hn. rewrite chunks_by_eq by done.
  change (map ?f ?l) with (f <$> l). rewrite list_lookup_fmap.
  pose proof (blocks_index n (length s) k Hn) as Hk.
  destruct (decide (k * n < length s)) as [Hlt|Hge].
  - rewrite lookup_seq_lt by by apply Hk. done.
  - rewrite lookup_seq_ge; [done|]. lia.
Qed.

Lemma chunks_by_single (n : nat) (s : pystr) :
  0 < length s ≤ n → chunks_by n s = [s].
Proof.
  intros [Hpos Hle]. rewrite chunks_by_eq by lia.
  replace ((length s + n - 1) / n) with 1
    by (apply (Nat.div_unique _ _ 1 (length s - 1)); lia).
  simpl. by rewrite take_ge.
Qed.

(** X7. The [k]-th piece is the slice that starts at [4000 * k]; every
    piece but the last has exactly 4000 characters, and the last has what
    is left. *)
Theorem message_chunks_pieces (s chunk : pystr) (k : nat) :
  message_chunks s !! k = Some chunk →
  chunk = py_slice s (k * chunk_limit) (k * chunk_limit + chunk_limit)
  ∧ length chunk = chunk_limit `min` (length s - k * chunk_limit)
  ∧ (S k < length (message_chunks s) → length chunk = chunk_limit).
Proof.
  change (message_chunks s) with (chunks_by chunk_limit s).
  pose proof chunk_limit_pos as Hpos.
  rewrite chunks_by_lookup by done.
  destruct (decide (k * chunk_limit < length s)) as [Hk|]; [|done].
  intros [= <-]. split.
  - unfold py_slice. f_equal. lia.
  - rewrite length_take, length_drop. split; [done|].
    rewrite chunks_by_count by done. intros Hnext.
    apply (blocks_index chunk_limit (length s) (S k) Hpos) in Hnext. lia.
Qed.

Lemma message_chunks_pieces_witness :
  length (replicate chunk_limit 97%N) = chunk_limit.
Proof.
  destruct (message_chunks_pieces
              (replicate chunk_limit 97%N ++ replicate 5 98%N
               ++ replicate chunk_limit 99%N)
              (replicate chunk_limit 97%N) 0) as (_ & _ & Hfull).
  - vm_compute. reflexivity.
  - apply Hfull. vm_compute. lia.
Defined.

(** X8. A message of at most 2000 characters that is not empty goes out in
    one call, whole; an empty message makes no call. *)
Theorem send_telegram_message_short transport (message : pystr) (st : state) :
  (message ≠ [] → 2 * length message ≤ chunk_limit →
   send_telegram_message transport message st
   = (Ok tt, State (last_commits st) (calls st ++ [escape_markdown message])
                   (appended st)))
  ∧ send_telegram_message transport [] st = (Ok tt, st).
Proof.
  unfold send_telegram_message. rewrite !send_chunks_run. split.
  - intros Hne Hshort.
    change (message_chunks (escape_markdown message))
      with (chunks_by chunk_limit (escape_markdown message)).
    rewrite chunks_by_single; [done|].
    pose proof (escape_markdown_grows message) as Hlen.
    destruct message; [done|]. simpl in Hlen. simpl in Hshort. lia.
  - destruct st. simpl. by rewrite app_nil_r.
Qed.

Lemma send_telegram_message_short_witness :
  calls (snd (send_telegram_message (fun _ _ => Ok tt) (str "v1.2 is out")
                initial_state))
  = [str "v1\.2 is out"].
Proof.
  destruct (send_telegram_message_short (fun _ _ => Ok tt) (str "v1.2 is out")
              initial_state) as [Hone _].
  rewrite Hone; [reflexivity | discriminate | vm_compute; lia].
Defined.

(** ** Summarizer, continued *)

(** X9. Because [max_length] is at least 10, the guard [max(5, ..)] never
    takes effect: [min_length] is always the floor of half of [max_length].
    And [max_length] is below the word count exactly from 11 words on; for
    a shorter message the summarizer is allowed as many words as the
    message has, or more. *)
Theorem min_length_is_half (text : pystr) :
  let word_count := Z.of_nat (length (py_split text)) in
  (min_length text = max_length text / 2
   ∧ 2 * min_length text ≤ max_length text
   ∧ (max_length text < word_count ↔ 11 ≤ word_count))%Z.
Proof.
  intros word_count.
  assert (Hmax : (10 ≤ max_length text ≤ 50)%Z) by (unfold max_length; lia).
  assert (Hhalf : (5 ≤ max_length text / 2)%Z)
    by (apply Z.div_le_lower_bound; lia).
  pose proof (Z.mul_div_le (max_length text) 2 eq_refl) as Hfloor.
  unfold min_length. split; [lia|]. split; [lia|].
  unfold max_length. fold word_count. lia.
Qed.

Lemma split_words_spec (cur s : pystr) :
  Forall (fun c => is_space c = false) cur →
  Forall (fun w => w ≠ [] ∧ Forall (fun c => is_space c = false) w)
         (split_words cur s)
  ∧ concat (split_words cur s)
    = rev cur ++ filter (fun c => is_space c = false) s.
Proof.
  revert cur. induction s as [|c s IH]; intros cur Hcur.
  - destruct cur as [|a cur]; simpl; [by split|].
    rewrite !app_nil_r. split; [|done].
    constructor; [|done]. split.
    + intros E. by apply app_eq_nil in E as [_ ?].
    + apply Forall_rev in Hcur. exact Hcur.
  - simpl split_words. rewrite filter_cons.
    destruct (is_space c) eqn:Hc.
    + rewrite decide_False by done.
      destruct (IH [] (Forall_nil_2 _)) as [Hwords Hcat].
      destruct cur as [|a cur]; [done|].
      split.
      * constructor; [|done]. split.
        -- intros E. by apply app_eq_nil in E as [_ ?].
        -- apply Forall_rev in Hcur. exact Hcur.
      * by rewrite concat_cons, Hcat.
    + rewrite decide_True by done.
      destruct (IH (c :: cur) (Forall_cons_2 _ _ _ Hc Hcur)) as [Hwords Hcat].
      split; [done|]. rewrite Hcat. simpl. by rewrite <- app_assoc.
Qed.

(** X10. The words counted by [summarize_text]: each is non-empty and free
    of white space, together they are the characters of the text that are
    not white space, in order; and there is no word exactly when the text
    is blank. *)
Theorem py_split_characterized (text : pystr) :
  Forall (fun w => w ≠ [] ∧ Forall (fun c => is_space c = false) w)
         (py_split text)
  ∧ concat (py_split text) = filter (fun c => is_space c = false) text
  ∧ (py_split text = [] ↔ Forall (fun c => is_space c = true) text).
Proof.
  destruct (split_words_spec [] text (Forall_nil_2 _)) as [Hwords Hcat].
  fold (py_split text) in Hwords, Hcat. simpl in Hcat.
  split; [done|]. split; [done|]. split.
  - intros E. rewrite E in Hcat. simpl in Hcat.
    apply Forall_forall. intros c Hc.
    destruct (is_space c) eqn:Hsp; [done|].
    assert (c ∈ filter (fun c => is_space c = false) text) as Hin
      by by apply list_elem_of_filter.
    rewrite <- Hcat in Hin. by apply not_elem_of_nil in Hin.
  - intros Hblank.
    assert (filter (fun c => is_space c = false) text = []) as Hnone.
    { clear Hwords Hcat. induction Hblank as [|c l Hc _ IH]; [done|].
      rewrite filter_cons, decide_False; [done|]. by rewrite Hc. }
    rewrite Hnone in Hcat.
    destruct (py_split text) as [|w ws]; [done|].
    apply Forall_cons in Hwords as [[Hw _] _].
    simpl in Hcat. by apply app_eq_nil in Hcat as [? _].
Qed.

Lemma py_split_characterized_witness : py_split (str "  ") = [].
Proof.
  destruct (py_split_characterized (str "  ")) as (_ & _ & _ & Hblank).
  apply Hblank. by repeat constructor.
Defined.

(** ** Classifier, continued *)

Lemma labels_distinct :
  label_bullish ≠ label_bearish ∧ label_bullish ≠ label_neutral
  ∧ label_bearish ≠ label_neutral.
Proof. repeat split; intros E; vm_compute in E; discriminate E. Qed.

(** The verdict as a function of the two tests of line 71 and line 74. *)
Lemma analyze_commit_verdict summarizer lower {score} (polarity : pystr → score)
    (commit_message : pystr) (commit_files : list file_change) :
  let out := analyze_commit summarizer lower polarity commit_message commit_files in
  ∃ bull bear : bool,
    (bull = true ↔ bullish_signal (lower commit_message) commit_files)
    ∧ (bear = true ↔ bearish_signal (lower commit_message) commit_files)
    ∧ out.1.2 = (if bull then label_bullish
                 else if bear then label_bearish else label_neutral)
    ∧ out.2 = (if bull then why_bullish
               else if bear then why_bearish else why_neutral).
Proof.
  intros out. subst out. unfold analyze_commit.
  pose proof (bullish_signal_spec (lower commit_message) commit_files) as Hbull.
  pose proof (bearish_signal_spec (lower commit_message) commit_files) as Hbear.
  destruct (existsb _ bullish_terms || truthy _) eqn:Eb;
    destruct (existsb _ bearish_terms || truthy _) eqn:Er.
  - by exists true, true.
  - by exists true, false.
  - by exists false, true.
  - by exists false, false.
Qed.

Lemma signal_congruence (terms : list pystr) (lowered st : pystr)
    (files1 files2 : list file_change) :
  (files_with st files1 = [] ↔ files_with st files2 = []) →
  (mentions terms lowered ∨ files_with st files1 ≠ [])
  ↔ (mentions terms lowered ∨ files_with st files2 ≠ []).
Proof. intros H. by rewrite H. Qed.

(** X11. Label and rationale depend on nothing but the lower-cased message
    and on whether some file is added and whether some file is removed:
    not on the summarizer, the polarity score, the file names, the order
    or number of the files, or files of any other status. *)
Theorem analyze_commit_relevant_inputs summarizer1 summarizer2 lower1 lower2
    {score1 score2} (polarity1 : pystr → score1) (polarity2 : pystr → score2)
    (message1 message2 : pystr) (files1 files2 : list file_change) :
  lower1 message1 = lower2 message2 →
  (files_with (str "added") files1 = [] ↔ files_with (str "added") files2 = []) →
  (files_with (str "removed") files1 = []
   ↔ files_with (str "removed") files2 = []) →
  let out1 := analyze_commit summarizer1 lower1 polarity1 message1 files1 in
  let out2 := analyze_commit summarizer2 lower2 polarity2 message2 files2 in
  out1.1.2 = out2.1.2 ∧ out1.2 = out2.2.
Proof.
  intros Hlow Hadd Hrem out1 out2.
  destruct (analyze_commit_verdict summarizer1 lower1 polarity1 message1 files1)
    as (bull1 & bear1 & Hbull1 & Hbear1 & Hl1 & Hw1).
  destruct (analyze_commit_verdict summarizer2 lower2 polarity2 message2 files2)
    as (bull2 & bear2 & Hbull2 & Hbear2 & Hl2 & Hw2).
  fold out1 in Hl1, Hw1. fold out2 in Hl2, Hw2.
  rewrite Hl1, Hw1, Hl2, Hw2, Hlow in *.
  assert (bull1 = bull2) as ->.
  { apply eq_true_iff_eq. rewrite Hbull1, Hbull2.
    by apply signal_congruence. }
  assert (bear1 = bear2) as ->.
  { apply eq_true_iff_eq. rewrite Hbear1, Hbear2.
    by apply signal_congruence. }
  done.
Qed.

Lemma analyze_commit_relevant_inputs_witness :
  (analyze_commit summarizer_down ascii_lower no_polarity (str "Fix Bug")
     [FileChange (str "a.py") (str "modified")]).1.2
  = (analyze_commit (fun _ _ _ => Ok (str "short")) ascii_lower (fun _ => 0%Z)
       (str "fix bug") []).1.2.
Proof.
  apply (analyze_commit_relevant_inputs summarizer_down
           (fun _ _ _ => Ok (str "short")) ascii_lower ascii_lower
           no_polarity (fun _ => 0%Z) (str "Fix Bug") (str "fix bug")
           [FileChange (str "a.py") (str "modified")] []);
    [reflexivity | done | done].
Defined.

Lemma occurs_in_trans (w s t : pystr) :
  occurs_in w s → occurs_in s t → occurs_in w t.
Proof.
  intros (pre & post & ->) (pre' & post' & ->).
  exists (pre' ++ pre), (post ++ post'). by rewrite <- !app_assoc.
Qed.

Lemma files_with_mono (st : pystr) (files1 files2 : list file_change) :
  files1 ⊆ files2 → files_with st files1 ≠ [] → files_with st files2 ≠ [].
Proof.
  unfold files_with. intros Hsub Hne E.
  destruct (filter _ files1) as [|f rest] eqn:E1; [done|].
  assert (f ∈ filter (fun f => status f = st) files1) as Hin
    by (rewrite E1; left).
  apply list_elem_of_filter in Hin as [Hst Hin].
  assert (f ∈ filter (fun f => status f = st) files2) as Hin2
    by (apply list_elem_of_filter; split; [done | by apply Hsub]).
  rewrite E in Hin2. by apply not_elem_of_nil in Hin2.
Qed.

(** X12. A bullish verdict is not lost by saying more: if the lower-cased
    message occurs inside another lower-cased message and every file is
    also in the other file list, the other commit is bullish as well. *)
Theorem bullish_label_monotone summarizer lower {score} (polarity : pystr → score)
    (message1 message2 : pystr) (files1 files2 : list file_change) :
  occurs_in (lower message1) (lower message2) →
  files1 ⊆ files2 →
  (analyze_commit summarizer lower polarity message1 files1).1.2 = label_bullish →
  (analyze_commit summarizer lower polarity message2 files2).1.2 = label_bullish.
Proof.
  intros Hocc Hsub.
  destruct (analyze_commit_verdict summarizer lower polarity message1 files1)
    as (bull1 & bear1 & Hbull1 & _ & -> & _).
  destruct (analyze_commit_verdict summarizer lower polarity message2 files2)
    as (bull2 & bear2 & Hbull2 & _ & -> & _).
  destruct labels_distinct as (Hbb & Hbn & Hen).
  intros Hlabel.
  assert (bull1 = true) as Hb1
    by (destruct bull1; [done|]; destruct bear1; congruence).
  apply Hbull1 in Hb1.
  assert (bull2 = true) as ->; [|done].
  apply Hbull2. destruct Hb1 as [(w & Hw & Hin) | Hadd].
  - left. exists w. split; [done|]. by eapply occurs_in_trans.
  - right. by eapply files_with_mono.
Qed.

Lemma bullish_label_monotone_witness :
  (analyze_commit summarizer_down ascii_lower no_polarity
     (str "Fix bug after Merge") [FileChange (str "a.py") (str "removed")]).1.2
  = label_bullish.
Proof.
  apply (bullish_label_monotone summarizer_down ascii_lower no_polarity
           (str "merge") (str "Fix bug after Merge")
           [] [FileChange (str "a.py") (str "removed")]).
  - exists (str "fix bug after "), []. reflexivity.
  - intros f Hf. by apply not_elem_of_nil in Hf.
  - reflexivity.
Defined.

(** ** Fetcher, continued *)

(** X13. [get_latest_commit] never lets a [requests.RequestException]
    out. It returns [None] when the request raises one of any class, when
    the status is in 400-599 whatever the body, and when the body is not
    JSON. Under any other status it returns the first commit of a list
    that is not empty, and lets out [IndexError] for an empty list,
    [KeyError] for a JSON object and [TypeError] for null, a number or a
    boolean. A commit it returns is always the first of a list received
    under a status outside 400-599. *)
Theorem get_latest_commit_outcomes get_commits (repo : pystr) :
  let answer := get_commits (commits_url repo) in
  get_latest_commit get_commits repo
  = match answer with
    | ListFails _ | ListGarbled _ => Ok None
    | ListReplies status body =>
        if error_status status then Ok None
        else match body with
             | [] => Raise IndexError
             | c :: _ => Ok (Some c)
             end
    | ListNotArray status body =>
        if error_status status then Ok None else Raise (subscript_error body)
    end
  ∧ (∀ e, get_latest_commit get_commits repo = Raise e →
          is_RequestException e = false)
  ∧ (∀ c, get_latest_commit get_commits repo = Ok (Some c) →
          ∃ status rest,
            answer = ListReplies status (c :: rest)
            ∧ error_status status = false).
Proof.
  intros answer. rewrite get_latest_commit_cases. fold answer.
  unfold error_status.
  destruct answer as [f|status body|status|status body].
  - done.
  - destruct ((400 <=? status) && (status <? 600))%Z eqn:E; [done|].
    destruct body as [|c rest].
    + split; [done|]. split; [|done]. by intros e [= <-].
    + split; [done|]. split; [done|]. intros c' [= <-]. by exists status, rest.
  - done.
  - destruct ((400 <=? status) && (status <? 600))%Z eqn:E; [done|].
    split; [done|]. split; [|done]. intros e [= <-]. by destruct body.
Qed.

Lemma get_latest_commit_outcomes_witness :
  ∃ status rest,
    ListReplies 200 [commit_at (str "111") (str "first");
                     commit_at (str "000") (str "older")]
    = ListReplies status (commit_at (str "111") (str "first") :: rest)
    ∧ error_status status = false.
Proof.
  destruct (get_latest_commit_outcomes
              (fun _ => ListReplies 200 [commit_at (str "111") (str "first");
                                         commit_at (str "000") (str "older")])
              (str "a/b")) as (_ & _ & Hsome).
  apply Hsome. reflexivity.
Defined.

Example get_latest_commit_off_schema :
  get_latest_commit (fun _ => ListGarbled 200) (str "a/b") = Ok None
  ∧ get_latest_commit (fun _ => ListNotArray 200 JsonObject) (str "a/b")
    = Raise KeyError
  ∧ get_latest_commit (fun _ => ListNotArray 403 JsonObject) (str "a/b")
    = Ok None
  ∧ get_latest_commit (fun _ => ListFails (OtherFailure "TooManyRedirects"))
      (str "a/b") = Ok None.
Proof. done. Qed.

(** ** Configuration *)

Lemma not_elem_of_rev (x : N) (l : pystr) : x ∉ l → x ∉ rev l.
Proof.
  intros H Hin. apply H. apply list_elem_of_In.
  apply list_elem_of_In in Hin. by apply in_rev.
Qed.

Lemma split_on_spec (sep : N) (cur s : pystr) :
  sep ∉ cur →
  ∃ first rest,
    split_on sep cur s = first :: rest
    ∧ py_join [sep] (first :: rest) = rev cur ++ s
    ∧ Forall (fun piece => sep ∉ piece) (first :: rest)
    ∧ length rest = length (filter (fun c => c = sep) s).
Proof.
  revert cur. induction s as [|c s IH]; intros cur Hcur.
  - exists (rev cur), []. simpl. rewrite app_nil_r.
    split; [done|]. split; [done|]. split; [|done].
    constructor; [|done]. by apply not_elem_of_rev.
  - simpl split_on. rewrite filter_cons. destruct (N.eqb_spec c sep) as [->|Hne].
    + rewrite decide_True by done.
      destruct (IH [] (not_elem_of_nil _)) as (p & ps & -> & Hjoin & Hfree & Hlen).
      exists (rev cur), (p :: ps). split; [done|]. split; [|split].
      * change (py_join [sep] (rev cur :: p :: ps))
          with (rev cur ++ [sep] ++ py_join [sep] (p :: ps)).
        by rewrite Hjoin.
      * constructor; [by apply not_elem_of_rev | done].
      * simpl. by rewrite Hlen.
    + rewrite decide_False by done.
      destruct (IH (c :: cur)) as (p & ps & -> & Hjoin & Hfree & Hlen).
      { intros [?|?]%elem_of_cons; [congruence | done]. }
      exists p, ps. split; [done|]. split; [|done].
      rewrite Hjoin. simpl. by rewrite <- app_assoc.
Qed.

(** X14. The configured list: without the variable, loading raises
    [AttributeError]; with it, there is always at least one entry (a single
    empty one for an empty value), no entry holds a comma, there is one
    entry more than the value has commas, and the entries joined by commas
    give the value back, so nothing is trimmed or dropped. *)
Theorem load_REPOS_spec (value : pystr) :
  load_REPOS None = Raise AttributeError
  ∧ load_REPOS (Some []) = Ok [[]]
  ∧ ∃ first rest,
      load_REPOS (Some value) = Ok (first :: rest)
      ∧ py_join [comma] (first :: rest) = value
      ∧ Forall (fun repo => comma ∉ repo) (first :: rest)
      ∧ length rest = length (filter (fun c => c = comma) value).
Proof.
  split; [done|]. split; [done|].
  destruct (split_on_spec comma [] value (not_elem_of_nil _))
    as (first & rest & E & Hjoin & Hfree & Hlen).
  exists first, rest. unfold load_REPOS. by rewrite E.
Qed.

Example load_REPOS_keeps_spaces :
  load_REPOS (Some (str "a/b, c/d,")) = Ok [str "a/b"; str " c/d"; []].
Proof. reflexivity. Qed.

(** ** Change tracker, continued *)

(** X15. After recording a sha for a repository, the newness test for that
    repository looks at that sha alone, whatever was recorded before; the
    test for every other repository is as it was; and recording twice is
    recording the later sha. *)
Theorem record_is_new_frame (seen : gmap pystr pystr)
    (repo other stored commit_sha : pystr) :
  (is_new (record seen repo stored) repo commit_sha = true ↔ stored ≠ commit_sha)
  ∧ (repo ≠ other →
     is_new (record seen repo stored) other commit_sha
     = is_new seen other commit_sha)
  ∧ record (record seen repo stored) repo commit_sha = record seen repo commit_sha.
Proof.
  unfold is_new, record. split; [|split].
  - rewrite lookup_insert_eq. apply bool_decide_eq_true.
  - intros Hne. by rewrite lookup_insert_ne.
  - apply insert_insert_eq.
Qed.

Lemma record_is_new_frame_witness :
  is_new (record {[ str "c/d" := str "999" ]} (str "a/b") (str "111"))
         (str "c/d") (str "999")
  = is_new {[ str "c/d" := str "999" ]} (str "c/d") (str "999").
Proof.
  destruct (record_is_new_frame {[ str "c/d" := str "999" ]}
              (str "a/b") (str "c/d") (str "111") (str "999"))
    as (_ & Hframe & _).
  apply Hframe. discriminate.
Defined.

(** ** Poll loop, continued *)

Lemma format_update_nonempty (repo summary sentiment explanation commit_url : pystr) :
  format_update repo summary sentiment explanation commit_url ≠ [].
Proof. done. Qed.

(** What one visit does to the batch, the log and the calls. *)
Lemma visit_repo_effect summarizer lower {score} (polarity : pystr → score)
    (w : world) (i : nat) (repo : pystr) (messages : list pystr) (st : state)
    (r : result (list pystr)) (st' : state) :
  visit_repo summarizer lower polarity w i repo messages st = (r, st') →
  ∃ new_log,
    appended st' = appended st ++ new_log
    ∧ length new_log ≤ 1
    ∧ calls st' = calls st
    ∧ match r with
      | Ok messages' =>
          ∃ new_messages,
            messages' = messages ++ new_messages
            ∧ length new_messages = length new_log
            ∧ Forall (fun m => m ≠ []) new_messages
      | Raise _ => True
      end.
Proof.
  unfold visit_repo, mbind, prog_bind, lift.
  destruct (get_latest_commit (get_commits w i) repo) as [[c|]|e] eqn:Hget;
    simpl.
  - destruct (get_commit_files _) as [files|e] eqn:Hfiles; simpl.
    + destruct (is_new (last_commits st) repo (sha c)); simpl.
      * destruct (analyze_commit _ _ _ _ _) as [[summary sentiment] explanation].
        simpl. intros [= <- <-]. exists [(repo, sha c)]. simpl.
        split; [done|]. split; [done|]. split; [done|].
        eexists [_]. split; [done|]. split; [done|].
        constructor; [apply format_update_nonempty | done].
      * intros [= <- <-]. exists []. rewrite app_nil_r.
        split; [done|]. split; [simpl; lia|]. split; [done|].
        exists []. by rewrite app_nil_r.
    + intros [= <- <-]. exists []. rewrite app_nil_r.
      split; [done|]. split; [simpl; lia|]. split; [done|].
      done.
  - intros [= <- <-]. exists []. rewrite app_nil_r.
    split; [done|]. split; [simpl; lia|]. split; [done|].
    exists []. by rewrite app_nil_r.
  - intros [= <- <-]. exists []. rewrite app_nil_r.
    split; [done|]. split; [simpl; lia|]. split; [done|].
    done.
Qed.

Lemma for_repos_effect summarizer lower {score} (polarity : pystr → score)
    (w : world) (repos : list pystr) (i : nat) (messages : list pystr)
    (st : state) (r : result (list pystr)) (st' : state) :
  for_repos summarizer lower polarity w i repos messages st = (r, st') →
  ∃ new_log,
    appended st' = appended st ++ new_log
    ∧ length new_log ≤ length repos
    ∧ calls st' = calls st
    ∧ match r with
      | Ok messages' =>
          ∃ new_messages,
            messages' = messages ++ new_messages
            ∧ length new_messages = length new_log
            ∧ Forall (fun m => m ≠ []) new_messages
      | Raise _ => True
      end.
Proof.
  revert i messages st.
  induction repos as [|repo rest IH]; intros i messages st.
  - intros [= <- <-]. exists []. rewrite app_nil_r.
    split; [done|]. split; [done|]. split; [done|].
    exists []. by rewrite app_nil_r.
  - simpl for_repos. unfold mbind, prog_bind.
    destruct (visit_repo _ _ _ w i repo messages st) as [r1 st1] eqn:Hvisit.
    apply visit_repo_effect in Hvisit
      as (log1 & Hlog1 & Hlen1 & Hcalls1 & Hr1).
    destruct r1 as [messages1|e].
    + destruct Hr1 as (new1 & -> & Hn1 & Hne1).
      intros Hrest. apply IH in Hrest as (log2 & Hlog2 & Hlen2 & Hcalls2 & Hr).
      exists (log1 ++ log2).
      split; [by rewrite Hlog2, Hlog1, app_assoc|].
      split; [rewrite length_app; simpl; lia|].
      split; [congruence|].
      destruct r as [messages'|e]; [|done].
      destruct Hr as (new2 & -> & Hn2 & Hne2).
      exists (new1 ++ new2). split; [by rewrite app_assoc|].
      split; [rewrite !length_app; lia | by apply Forall_app].
    + intros [= <- <-]. exists log1.
      split; [done|]. split; [simpl; lia|]. done.
Qed.

Lemma py_join_nonempty (sep m : pystr) (rest : list pystr) :
  m ≠ [] → py_join sep (m :: rest) ≠ [].
Proof. intros Hm. destruct rest; simpl; [done|]. by destruct m. Qed.

Lemma message_chunks_nonempty (s : pystr) : s ≠ [] → message_chunks s ≠ [].
Proof.
  intros Hs E. pose proof chunk_limit_pos as Hpos.
  assert (0 < (length s + chunk_limit - 1) / chunk_limit) as Hcount.
  { apply (blocks_index chunk_limit (length s) 0 Hpos).
    destruct s; [done | simpl; lia]. }
  rewrite <- chunks_by_count in Hcount by done.
  change (chunks_by chunk_limit s) with (message_chunks s) in Hcount.
  rewrite E in Hcount. simpl in Hcount. lia.
Qed.

Lemma escape_markdown_nonempty (s : pystr) : s ≠ [] → escape_markdown s ≠ [].
Proof.
  intros Hs E. pose proof (escape_markdown_grows s) as [Hlen _].
  rewrite E in Hlen. destruct s; [done | simpl in Hlen; lia].
Qed.

(** What one pass does, in one statement for the three theorems below. *)
Lemma poll_cycle_effect summarizer lower {score} (polarity : pystr → score)
    REPOS (w : world) (st : state) (r : result unit) (st' : state) :
  poll_cycle summarizer lower polarity REPOS w st = (r, st') →
  ∃ new_log sent,
    appended st' = appended st ++ new_log
    ∧ length new_log ≤ length REPOS
    ∧ calls st' = calls st ++ sent
    ∧ match r with
      | Ok _ => sent = [] ↔ new_log = []
      | Raise _ => sent = []
      end.
Proof.
  unfold poll_cycle, mbind, prog_bind.
  destruct (for_repos _ _ _ w 0 REPOS [] st) as [r1 st1] eqn:Hfor.
  apply for_repos_effect in Hfor as (new_log & Hlog & Hlen & Hcalls & Hr1).
  destruct r1 as [messages|e].
  - destruct Hr1 as (new_messages & -> & Hcount & Hne). rewrite !app_nil_l.
    destruct new_messages as [|m rest]; unfold truthy; cbv iota.
    + intros [= <- <-]. exists new_log, []. rewrite app_nil_r.
      split; [done|]. split; [done|]. split; [done|].
      split; [|done]. intros _. by destruct new_log.
    + unfold send_telegram_message. cbv beta iota zeta.
      rewrite send_chunks_run. intros [= <- <-]. simpl.
      exists new_log, (message_chunks
                         (escape_markdown (py_join [newline; newline] (m :: rest)))).
      split; [done|]. split; [done|]. split; [by rewrite Hcalls|].
      apply Forall_cons in Hne as [Hm _].
      split.
      * intros E. apply message_chunks_nonempty in E; [done|].
        by apply escape_markdown_nonempty, py_join_nonempty.
      * intros ->. done.
  - intros [= <- <-]. exists new_log, []. rewrite app_nil_r. done.
Qed.

Lemma for_repos_any_transport summarizer lower {score}
    (polarity : pystr → score) get_commits get_detail transport1 transport2
    (repos : list pystr) (i : nat) (messages : list pystr) (st : state) :
  for_repos summarizer lower polarity (World get_commits get_detail transport1)
    i repos messages st
  = for_repos summarizer lower polarity (World get_commits get_detail transport2)
      i repos messages st.
Proof.
  revert i messages st. induction repos as [|repo rest IH];
    intros i messages st; [done|].
  simpl for_repos. unfold mbind, prog_bind.
  change (visit_repo summarizer lower polarity
            (World get_commits get_detail transport2) i repo messages st)
    with (visit_repo summarizer lower polarity
            (World get_commits get_detail transport1) i repo messages st).
  destruct (visit_repo _ _ _ _ i repo messages st) as [[messages'|e] st'];
    [apply IH | done].
Qed.

(** X16. The answers of [bot.send_message] have no influence on a pass:
    with the same answers to the list and detail requests, two transports
    give the same result, the same tracker and log, and the same texts
    handed over. And a pass that raises has handed over nothing. *)
Theorem poll_cycle_ignores_transport summarizer lower {score} (polarity : pystr → score)
    REPOS get_commits get_detail transport1 transport2 (st : state) :
  poll_cycle summarizer lower polarity REPOS
    (World get_commits get_detail transport1) st
  = poll_cycle summarizer lower polarity REPOS
      (World get_commits get_detail transport2) st
  ∧ (∀ e st',
       poll_cycle summarizer lower polarity REPOS
         (World get_commits get_detail transport1) st = (Raise e, st') →
       calls st' = calls st).
Proof.
  split.
  - unfold poll_cycle, mbind, prog_bind.
    rewrite (for_repos_any_transport _ _ _ _ _ transport1 transport2).
    destruct (for_repos _ _ _ _ 0 REPOS [] st) as [[messages|e] st1]; [|done].
    destruct (truthy messages); [|done].
    unfold send_telegram_message. cbv beta iota zeta.
    by rewrite !send_chunks_run.
  - intros e st' Hpass.
    apply poll_cycle_effect in Hpass as (new_log & sent & _ & _ & Hcalls & ->).
    by rewrite app_nil_r in Hcalls.
Qed.

Lemma poll_cycle_ignores_transport_witness :
  calls (snd (poll_cycle summarizer_down ascii_lower no_polarity [str "a/b"]
                (World (fun _ _ => ListReplies 200
                                     [commit_at (str "111") (str "first")])
                       (fun _ _ => DetailNotObject)
                       (fun _ _ => Raise TelegramError))
                initial_state))
  = calls initial_state.
Proof.
  destruct (poll_cycle_ignores_transport summarizer_down ascii_lower no_polarity [str "a/b"]
              (fun _ _ => ListReplies 200 [commit_at (str "111") (str "first")])
              (fun _ _ => DetailNotObject)
              (fun _ _ => Raise TelegramError) (fun _ _ => Ok tt) initial_state)
    as [_ Hnone].
  apply (Hnone AttributeError). reflexivity.
Defined.

(** X17. A pass that ends normally calls the transport exactly when it has
    appended a notification: no new commit, no message; a new commit, at
    least one message. *)
Theorem poll_cycle_sends_iff_new summarizer lower {score}
    (polarity : pystr → score) REPOS (w : world) (st st' : state) :
  poll_cycle summarizer lower polarity REPOS w st = (Ok tt, st') →
  calls st' = calls st ↔ appended st' = appended st.
Proof.
  intros Hpass.
  apply poll_cycle_effect in Hpass as (new_log & sent & -> & _ & -> & Hiff).
  rewrite <- (app_nil_r (calls st)) at 2.
  rewrite <- (app_nil_r (appended st)) at 2.
  split; intros E%app_inv_head; f_equal; by apply Hiff.
Qed.

Lemma poll_cycle_sends_iff_new_witness :
  calls (snd (poll_cycle summarizer_down ascii_lower no_polarity [str "a/b"]
                (World (fun _ _ => ListFails TimedOut)
                       (fun _ _ => DetailReplies None) (fun _ _ => Ok tt))
                initial_state))
  = calls initial_state.
Proof.
  apply (poll_cycle_sends_iff_new summarizer_down ascii_lower no_polarity
           [str "a/b"]
           (World (fun _ _ => ListFails TimedOut)
                  (fun _ _ => DetailReplies None) (fun _ _ => Ok tt))
           initial_state); reflexivity.
Defined.

(** X18. Over any number of passes the log of notifications and the list
    of calls only grow, and each pass appends at most one notification for
    each entry of the configured list. *)
Theorem main_loop_grows summarizer lower {score} (polarity : pystr → score)
    REPOS (ws : list world) (st : state) :
  let st' := main_loop summarizer lower polarity REPOS ws st in
  appended st `prefix_of` appended st'
  ∧ calls st `prefix_of` calls st'
  ∧ length (appended st') ≤ length (appended st) + length ws * length REPOS.
Proof.
  revert st. induction ws as [|w ws IH]; intros st.
  { simpl. split; [done|]. split; [done|]. lia. }
  simpl main_loop.
  destruct (poll_cycle summarizer lower polarity REPOS w st) as [r st1] eqn:Hpass.
  apply poll_cycle_effect in Hpass as (new_log & sent & Hlog & Hlen & Hcalls & _).
  destruct (IH st1) as (Hpre1 & Hpre2 & Hbound). simpl snd.
  rewrite Hlog in Hpre1, Hbound. rewrite Hcalls in Hpre2.
  rewrite length_app in Hbound.
  split; [by etransitivity; [apply prefix_app_r|]|].
  split; [by etransitivity; [apply prefix_app_r|]|].
  simpl. lia.
Qed.

Lemma elem_of_shas_for (repo commit_sha : pystr) (log : list (pystr * pystr)) :
  commit_sha ∈ shas_for repo log ↔ (repo, commit_sha) ∈ log.
Proof.
  induction log as [|[r s] log IH].
  - split; intros H; by apply not_elem_of_nil in H.
  - rewrite shas_for_cons, elem_of_cons.
    destruct (decide (r = repo)) as [->|Hne].
    + rewrite elem_of_cons, IH. split.
      * intros [->|H]; [by left | by right].
      * intros [[= ->]|H]; [by left | by right].
    + rewrite IH. split; [by right|].
      intros [[= ? ?]|H]; done.
Qed.

Lemma main_loop_preserves summarizer lower {score} (polarity : pystr → score)
    REPOS (P : state → Prop) :
  (∀ st extra,
     P st → P (State (last_commits st) (calls st ++ extra) (appended st))) →
  (∀ st repo commit_sha,
     repo ∈ REPOS → is_new (last_commits st) repo commit_sha = true → P st →
     P (State (record (last_commits st) repo commit_sha) (calls st)
              (appended st ++ [(repo, commit_sha)]))) →
  ∀ ws st, P st → P (main_loop summarizer lower polarity REPOS ws st).
Proof.
  intros Hcalls Hnotify.
  assert (Hfor : ∀ w repos i messages st,
            repos ⊆ REPOS → P st →
            P (snd (for_repos summarizer lower polarity w i repos messages st))).
  { intros w repos. induction repos as [|repo rest IH];
      intros i messages st Hsub HP; [done|].
    simpl. unfold mbind, prog_bind.
    pose proof (visit_repo_state summarizer lower polarity w i repo messages st)
      as Hstep.
    destruct (visit_repo _ _ _ w i repo messages st) as [[messages'|e] st1];
      simpl in Hstep.
    - apply IH; [intros r Hr; apply Hsub; by right|].
      destruct Hstep as [-> | (commit_sha & Hnew & ->)]; [done|].
      apply Hnotify; [apply Hsub; left | done..].
    - simpl. destruct Hstep as [-> | (commit_sha & Hnew & ->)]; [done|].
      apply Hnotify; [apply Hsub; left | done..]. }
  intros ws. induction ws as [|w ws IH]; intros st HP; [done|].
  simpl. apply IH. unfold poll_cycle, mbind, prog_bind.
  pose proof (Hfor w REPOS 0 [] st (reflexivity _) HP) as HP1.
  destruct (for_repos _ _ _ w 0 REPOS [] st) as [[messages|e] st1];
    simpl in *; [|done].
  destruct (truthy messages); [|done].
  unfold send_telegram_message. rewrite send_chunks_run. simpl.
  by apply Hcalls.
Qed.

(** X19. Starting from the empty tracker, the tracker has an entry for a
    repository exactly when a notification for it has been appended, and
    only configured repositories are ever notified or tracked. *)
Theorem tracker_within_REPOS summarizer lower {score} (polarity : pystr → score)
    REPOS (ws : list world) :
  let st := main_loop summarizer lower polarity REPOS ws initial_state in
  (∀ repo, is_Some (last_commits st !! repo)
           ↔ ∃ commit_sha, (repo, commit_sha) ∈ appended st)
  ∧ (∀ repo commit_sha, (repo, commit_sha) ∈ appended st → repo ∈ REPOS)
  ∧ (∀ repo, is_Some (last_commits st !! repo) → repo ∈ REPOS).
Proof.
  intros st.
  assert (Hinv : tracker_invariant st)
    by apply main_loop_invariant, tracker_invariant_initial.
  assert (Hiff : ∀ repo, is_Some (last_commits st !! repo)
                         ↔ ∃ commit_sha, (repo, commit_sha) ∈ appended st).
  { intros repo. destruct (Hinv repo) as [<- _]. rewrite last_is_Some. split.
    - intros Hne. destruct (shas_for repo (appended st)) as [|s l] eqn:E; [done|].
      exists s. apply elem_of_shas_for. rewrite E. left.
    - intros [s Hs%elem_of_shas_for] E. rewrite E in Hs.
      by apply not_elem_of_nil in Hs. }
  assert (Hlog : ∀ repo commit_sha,
            (repo, commit_sha) ∈ appended st → repo ∈ REPOS).
  { subst st.
    apply (main_loop_preserves summarizer lower polarity REPOS
             (fun st => ∀ repo commit_sha,
                          (repo, commit_sha) ∈ appended st → repo ∈ REPOS)).
    - intros st0 extra HP. exact HP.
    - intros st0 repo commit_sha Hin _ HP r s. simpl.
      rewrite elem_of_app, list_elem_of_singleton.
      intros [Hold | [= -> ->]]; [by eapply HP | done].
    - intros r s H. by apply not_elem_of_nil in H. }
  split; [done|]. split; [done|].
  intros repo [commit_sha Hin]%Hiff. by eapply Hlog.
Qed.

Lemma tracker_within_REPOS_witness :
  str "a/b" ∈ [str "a/b"].
Proof.
  destruct (tracker_within_REPOS summarizer_down ascii_lower no_polarity
              [str "a/b"] head_moves_back) as (_ & _ & Htracked).
  apply Htracked. vm_compute. by eexists.
Defined.

Lemma visit_repo_quiet summarizer lower {score} (polarity : pystr → score)
    (w : world) (i : nat) (repo : pystr) (messages : list pystr) (st : state) :
  quiet w st i repo →
  visit_repo summarizer lower polarity w i repo messages st = (Ok messages, st).
Proof.
  unfold quiet, visit_repo, mbind, prog_bind, lift.
  destruct (get_latest_commit (get_commits w i) repo) as [[c|]|e]; [|done..].
  intros (Hseen & files & ->). simpl.
  unfold is_new. rewrite Hseen.
  by rewrite bool_decide_eq_false_2 by (intros H; by apply H).
Qed.

(** X20. A pass in which no repository has anything new (each list request
    gives no commit, or the commit the tracker already holds together with
    a detail that answers) ends normally and leaves the state as it was:
    nothing is recorded, appended or sent. *)
Theorem poll_cycle_quiet summarizer lower {score} (polarity : pystr → score)
    REPOS (w : world) (st : state) :
  (∀ i repo, REPOS !! i = Some repo → quiet w st i repo) →
  poll_cycle summarizer lower polarity REPOS w st = (Ok tt, st).
Proof.
  intros Hquiet.
  assert (Hfor : ∀ repos i messages,
            (∀ k repo, repos !! k = Some repo → quiet w st (i + k) repo) →
            for_repos summarizer lower polarity w i repos messages st
            = (Ok messages, st)).
  { induction repos as [|repo rest IH]; intros i messages Hq; [done|].
    simpl. unfold mbind, prog_bind.
    rewrite visit_repo_quiet
      by (specialize (Hq 0 repo eq_refl); by rewrite Nat.add_0_r in Hq).
    apply IH. intros k r Hk. specialize (Hq (S k) r Hk).
    by replace (S i + k) with (i + S k) by lia. }
  unfold poll_cycle, mbind, prog_bind. by rewrite (Hfor REPOS 0 [] Hquiet).
Qed.

Lemma poll_cycle_quiet_witness :
  poll_cycle summarizer_down ascii_lower no_polarity [str "a/b"]
    (calm_world (commit_at (str "111") (str "first")) [])
    (State {[ str "a/b" := str "111" ]} [] [(str "a/b", str "111")])
  = (Ok tt, State {[ str "a/b" := str "111" ]} [] [(str "a/b", str "111")]).
Proof.
  apply poll_cycle_quiet. intros [|i] repo Hrepo; [|done].
  injection Hrepo as <-. split; [reflexivity | by eexists].
Defined.

Lemma visit_repo_new summarizer lower {score} (polarity : pystr → score)
    (w : world) (i : nat) (repo : pystr) (c : commit) (messages : list pystr)
    (st : state) :
  shows_commit w i repo c →
  is_new (last_commits st) repo (sha c) = true →
  ∃ m,
    visit_repo summarizer lower polarity w i repo messages st
    = (Ok (messages ++ [m]),
       State (record (last_commits st) repo (sha c)) (calls st)
             (appended st ++ [(repo, sha c)])).
Proof.
  intros (Hget & files & Hfiles) Hnew.
  unfold visit_repo, mbind, prog_bind, lift. rewrite Hget. simpl.
  rewrite Hfiles. simpl. rewrite Hnew. simpl.
  destruct (analyze_commit _ _ _ _ _) as [[summary sentiment] explanation].
  simpl. by eexists.
Qed.

Lemma for_repos_fresh summarizer lower {score} (polarity : pystr → score)
    (w : world) (repos : list pystr) (i : nat) (messages : list pystr)
    (st : state) :
  NoDup repos →
  (∀ repo, repo ∈ repos → last_commits st !! repo = None) →
  (∀ k repo, repos !! k = Some repo → ∃ c, shows_commit w (i + k) repo c) →
  ∃ messages' st' new,
    for_repos summarizer lower polarity w i repos messages st = (Ok messages', st')
    ∧ calls st' = calls st
    ∧ appended st' = appended st ++ new
    ∧ map fst new = repos
    ∧ length messages' = length messages + length repos
    ∧ (∀ other, other ∉ repos →
                last_commits st' !! other = last_commits st !! other)
    ∧ (∀ k repo c, repos !! k = Some repo → shows_commit w (i + k) repo c →
                   new !! k = Some (repo, sha c)
                   ∧ last_commits st' !! repo = Some (sha c)).
Proof.
  revert i messages st.
  induction repos as [|repo rest IH]; intros i messages st Hnodup Hfresh Hshows.
  - exists messages, st, []. rewrite app_nil_r. simpl.
    repeat split; try done; lia.
  - apply NoDup_cons in Hnodup as [Hnotin Hnodup].
    destruct (Hshows 0 repo eq_refl) as [c Hc]. rewrite Nat.add_0_r in Hc.
    assert (is_new (last_commits st) repo (sha c) = true) as Hnew
      by (unfold is_new; rewrite Hfresh; [done | left]).
    destruct (visit_repo_new summarizer lower polarity w i repo c messages st
                Hc Hnew) as [m Hvisit].
    simpl for_repos. unfold mbind, prog_bind. rewrite Hvisit.
    set (st1 := State (record (last_commits st) repo (sha c)) (calls st)
                      (appended st ++ [(repo, sha c)])).
    destruct (IH (S i) (messages ++ [m]) st1 Hnodup)
      as (messages' & st' & new & Hrun & Hcalls & Hlog & Hfst & Hlen & Hframe
          & Heach).
    { intros r Hr. simpl. unfold record. rewrite lookup_insert_ne; [|congruence].
      apply Hfresh. by right. }
    { intros k r Hk. destruct (Hshows (S k) r Hk) as [c' Hc'].
      exists c'. by replace (S i + k) with (i + S k) by lia. }
    exists messages', st', ((repo, sha c) :: new).
    split; [done|]. split; [done|].
    split; [by rewrite Hlog; simpl; rewrite <- app_assoc|].
    split; [by simpl; rewrite Hfst|].
    split; [rewrite Hlen, length_app; simpl; lia|].
    split.
    + intros other Hother. apply not_elem_of_cons in Hother as [Hne Hother].
      rewrite Hframe by done. simpl. unfold record.
      by rewrite lookup_insert_ne.
    + intros [|k] r c' Hk Hc'.
      * injection Hk as <-. rewrite Nat.add_0_r in Hc'.
        destruct Hc as [Hget _], Hc' as [Hget' _].
        rewrite Hget in Hget'. injection Hget' as <-.
        split; [done|]. rewrite Hframe by done. simpl. unfold record.
        by rewrite lookup_insert_eq.
      * apply Heach; [done|]. by replace (S i + k) with (i + S k) by lia.
Qed.

(** X21. The first pass after a start, with the tracker empty: when the
    configured repositories are distinct and each shows a commit and its
    detail, every one of them is notified, in configuration order, and
    recorded at the sha shown, and the pass ends normally. A start thus
    announces the current head of every repository again. *)
Theorem first_pass_notifies_all summarizer lower {score}
    (polarity : pystr → score) REPOS (w : world) :
  NoDup REPOS →
  (∀ i repo, REPOS !! i = Some repo → ∃ c, shows_commit w i repo c) →
  ∃ st',
    poll_cycle summarizer lower polarity REPOS w initial_state = (Ok tt, st')
    ∧ map fst (appended st') = REPOS
    ∧ (REPOS ≠ [] → calls st' ≠ [])
    ∧ (∀ i repo c, REPOS !! i = Some repo → shows_commit w i repo c →
                   appended st' !! i = Some (repo, sha c)
                   ∧ last_commits st' !! repo = Some (sha c)).
Proof.
  intros Hnodup Hshows.
  destruct (for_repos_fresh summarizer lower polarity w REPOS 0 []
              initial_state Hnodup)
    as (messages & st1 & new & Hrun & Hcalls & Hlog & Hfst & Hlen & _ & Heach);
    [done | done |].
  simpl in Hlog, Hcalls, Hlen.
  pose proof Hrun as Heffect.
  apply for_repos_effect in Heffect as (_ & _ & _ & _ & new_messages & Hm & _ & Hne).
  simpl in Hm. subst new_messages.
  unfold poll_cycle, mbind, prog_bind. rewrite Hrun.
  destruct messages as [|m rest].
  - exists st1. simpl. split; [done|]. rewrite Hlog.
    split; [done|]. split; [destruct REPOS; [done | simpl in Hlen; lia]|].
    intros i repo c Hi Hc. by apply Heach.
  - unfold truthy. unfold send_telegram_message. cbv beta iota zeta.
    rewrite send_chunks_run. eexists. split; [done|].
    cbn [calls appended last_commits]. rewrite Hlog.
    split; [done|]. split.
    + intros _. rewrite Hcalls, app_nil_l. apply message_chunks_nonempty.
      apply Forall_cons in Hne as [Hm _].
      by apply escape_markdown_nonempty, py_join_nonempty.
    + intros i repo c Hi Hc. by apply Heach.
Qed.

Lemma first_pass_notifies_all_witness :
  ∃ st',
    poll_cycle summarizer_down ascii_lower no_polarity [str "a/b"; str "c/d"]
      (calm_world (commit_at (str "111") (str "first")) []) initial_state
    = (Ok tt, st')
    ∧ map fst (appended st') = [str "a/b"; str "c/d"].
Proof.
  destruct (first_pass_notifies_all summarizer_down ascii_lower no_polarity
              [str "a/b"; str "c/d"]
              (calm_world (commit_at (str "111") (str "first")) []))
    as (st' & Hrun & Hall & _).
  - apply (bool_decide_unpack _). vm_compute. exact I.
  - intros i repo Hi. exists (commit_at (str "111") (str "first")).
    split; [reflexivity | by eexists].
  - by exists st'.
Defined.

(** X22. The detail request comes before the newness test: when it raises,
    the visit raises and leaves the state as it was, also for a commit the
    tracker already holds. *)
Theorem visit_repo_detail_failure summarizer lower {score}
    (polarity : pystr → score) (w : world) (i : nat) (repo : pystr)
    (c : commit) (e : exn) (messages : list pystr) (st : state) :
  get_latest_commit (get_commits w i) repo = Ok (Some c) →
  get_commit_files (get_detail w i (url c)) = Raise e →
  visit_repo summarizer lower polarity w i repo messages st = (Raise e, st).
Proof.
  intros Hget Hfiles. unfold visit_repo, mbind, prog_bind, lift.
  rewrite Hget. simpl. by rewrite Hfiles.
Qed.

Lemma visit_repo_detail_failure_witness :
  visit_repo summarizer_down ascii_lower no_polarity
    (World (fun _ _ => ListReplies 200 [commit_at (str "111") (str "first")])
           (fun _ _ => DetailFails TimedOut) (fun _ _ => Ok tt))
    0 (str "a/b") []
    (State {[ str "a/b" := str "111" ]} [] [(str "a/b", str "111")])
  = (Raise Timeout,
     State {[ str "a/b" := str "111" ]} [] [(str "a/b", str "111")]).
Proof.
  apply (visit_repo_detail_failure summarizer_down ascii_lower no_polarity _ 0
           (str "a/b") (commit_at (str "111") (str "first")) Timeout);
    reflexivity.
Defined.

(** X23. A visit that finds a commit and its files: if the sha is the one
    the tracker holds, batch and state stay as they are; otherwise the sha
    is recorded and one message is put at the end of the batch, built from
    the repository, the verdict of [analyze_commit] on the commit message
    and the files, and the page URL of the commit. *)
Theorem visit_repo_outcome summarizer lower {score} (polarity : pystr → score)
    (w : world) (i : nat) (repo : pystr) (c : commit)
    (files : list file_change) (messages : list pystr) (st : state) :
  get_latest_commit (get_commits w i) repo = Ok (Some c) →
  get_commit_files (get_detail w i (url c)) = Ok files →
  let out := analyze_commit summarizer lower polarity (message c) files in
  visit_repo summarizer lower polarity w i repo messages st
  = if decide (last_commits st !! repo = Some (sha c))
    then (Ok messages, st)
    else (Ok (messages ++ [format_update repo out.1.1 out.1.2 out.2 (html_url c)]),
          State (<[repo := sha c]> (last_commits st)) (calls st)
                (appended st ++ [(repo, sha c)])).
Proof.
  intros Hget Hfiles out. subst out.
  unfold visit_repo, mbind, prog_bind, lift. rewrite Hget. simpl.
  rewrite Hfiles. simpl. unfold is_new.
  destruct (decide (last_commits st !! repo = Some (sha c))) as [Hseen|Hnew].
  - rewrite Hseen. by rewrite bool_decide_eq_false_2 by (intros H; by apply H).
  - assert (match last_commits st !! repo with
            | Some stored => bool_decide (stored ≠ sha c)
            | None => true
            end = true) as ->.
    { destruct (last_commits st !! repo) as [stored|]; [|done].
      apply bool_decide_eq_true. congruence. }
    simpl.
    by destruct (analyze_commit _ _ _ _ _) as [[summary sentiment] explanation].
Qed.

Lemma visit_repo_outcome_witness :
  fst (visit_repo summarizer_down ascii_lower no_polarity
         (calm_world (commit_at (str "222") (str "fix vulnerability in parser")) [])
         0 (str "a/b") [] (State {[ str "a/b" := str "111" ]} [] []))
  = Ok [format_update (str "a/b") (str "fix vulnerability in parser")
          label_bearish why_bearish (str "https://github.com/a/b/commit/222")].
Proof.
  rewrite (visit_repo_outcome summarizer_down ascii_lower no_polarity _ 0
             (str "a/b")
             (commit_at (str "222") (str "fix vulnerability in parser")) []);
    reflexivity.
Defined.
